(** * generate_project_structure.py: the tree serializer

    A shallow embedding of [generate_project_structure.py].  The script
    walks a directory tree depth first and accumulates two lists of
    strings, [structure_lines] and [content_lines], which
    [write_structure] then assembles into the text of the output file.

    Conventions of the embedding.
    - A Python [str] is a [string]; names are the byte strings of their
      UTF-8 encoding, whose lexical order is the code point order that
      [list.sort] uses on [str].
    - A path is the list of its components.  [os.path.join(d, e)] for a
      directory entry [e] adds one component; [os.path.relpath] is the
      component-wise algorithm of [posixpath]/[ntpath].
    - The file system is read through the record [filesystem], one field
      per [os] call of the script.  The fields are functions of the path:
      the script's stable-snapshot assumption.
    - A call that can raise returns a [result]; the recursion of
      [collect_structure_and_contents] is bounded by a fuel argument, and
      the two mutable lists are threaded as a pair. *)

From Stdlib Require Import List String Ascii ZArith Bool Arith Lia.
From Stdlib Require Import Permutation Sorted Orders OrdersEx Mergesort.
From Stdlib Require Import RelationClasses.
Import ListNotations.

Open Scope string_scope.
Open Scope list_scope.

(** ** Results of calls that may raise *)

(** [Raise msg] is a Python exception whose [str()] is [msg]. *)
Inductive result (A : Type) : Type :=
| Ok (a : A)
| Raise (msg : string).
Arguments Ok {A} a.
Arguments Raise {A} msg.

(** The outcome of a fuel-bounded run. *)
Inductive outcome (A : Type) : Type :=
| Returns (a : A)
| Raises (msg : string)
| OutOfFuel.
Arguments Returns {A} a.
Arguments Raises {A} msg.
Arguments OutOfFuel {A}.

Definition bind {A B : Type} (c : outcome A) (k : A -> outcome B) : outcome B :=
  match c with
  | Returns a => k a
  | Raises msg => Raises msg
  | OutOfFuel => OutOfFuel
  end.

Definition lift {A : Type} (r : result A) : outcome A :=
  match r with
  | Ok a => Returns a
  | Raise msg => Raises msg
  end.

Notation "x <- c ;; k" := (bind c (fun x => k))
  (at level 61, c at next level, right associativity).

(** [for x in xs: st = body x st], stopping at the first exception. *)
Fixpoint for_each {A S : Type} (xs : list A) (body : A -> S -> outcome S)
  (st : S) : outcome S :=
  match xs with
  | [] => Returns st
  | x :: rest => st' <- body x st ;; for_each rest body st'
  end.

(** ** Strings *)

Definition TAB : string := String "009"%char EmptyString.
Definition NL : string := String "010"%char EmptyString.

(** [s * n] *)
Fixpoint str_repeat (s : string) (n : nat) : string :=
  match n with
  | O => EmptyString
  | S n' => s ++ str_repeat s n'
  end.

(** [s.startswith(c)] for a one-character [c]. *)
Definition startswith (c : ascii) (s : string) : bool :=
  match s with
  | String a _ => Ascii.eqb a c
  | EmptyString => false
  end.

(** [s.replace(old, new)] for one-character [old] and [new]. *)
Fixpoint replace_char (old new : ascii) (s : string) : string :=
  match s with
  | EmptyString => EmptyString
  | String a rest =>
      String (if Ascii.eqb a old then new else a) (replace_char old new rest)
  end.

(** The lowercase of a string of ASCII characters, on which every
    lowercasing agrees: for examples on ASCII names. *)
Definition lower_ascii_char (a : ascii) : ascii :=
  let n := nat_of_ascii a in
  if (65 <=? n)%nat && (n <=? 90)%nat then ascii_of_nat (n + 32) else a.

Fixpoint lower_ascii (s : string) : string :=
  match s with
  | EmptyString => EmptyString
  | String a rest => String (lower_ascii_char a) (lower_ascii rest)
  end.

(** The white space of [str.strip], the characters for which
    [str.isspace] holds, in UTF-8: U+0009 to U+000D, U+001C to U+0020;
    U+0085 and U+00A0; U+1680, U+2000 to U+200A, U+2028, U+2029, U+202F,
    U+205F and U+3000. *)
Definition is_space1 (a : ascii) : bool :=
  let n := nat_of_ascii a in
  ((9 <=? n)%nat && (n <=? 13)%nat) || ((28 <=? n)%nat && (n <=? 32)%nat).

Definition is_space2 (a b : ascii) : bool :=
  (nat_of_ascii a =? 194)%nat
  && ((nat_of_ascii b =? 133)%nat || (nat_of_ascii b =? 160)%nat).

Definition is_space3 (a b c : ascii) : bool :=
  let x := nat_of_ascii a in
  let y := nat_of_ascii b in
  let z := nat_of_ascii c in
  ((x =? 225)%nat && (y =? 154)%nat && (z =? 128)%nat)
  || ((x =? 226)%nat && (y =? 128)%nat
      && (((128 <=? z)%nat && (z <=? 138)%nat)
          || (z =? 168)%nat || (z =? 169)%nat || (z =? 175)%nat))
  || ((x =? 226)%nat && (y =? 129)%nat && (z =? 159)%nat)
  || ((x =? 227)%nat && (y =? 128)%nat && (z =? 128)%nat).

(** [str.lstrip()] *)
Fixpoint lstrip (s : string) : string :=
  match s with
  | EmptyString => EmptyString
  | String a rest =>
      if is_space1 a then lstrip rest
      else
        match rest with
        | String b rest' =>
            if is_space2 a b then lstrip rest'
            else
              match rest' with
              | String c rest'' =>
                  if is_space3 a b c then lstrip rest'' else s
              | EmptyString => s
              end
        | EmptyString => s
        end
  end.

(** [str.rstrip()]: the string up to where only white space is left. *)
Fixpoint rstrip (s : string) : string :=
  match s with
  | EmptyString => EmptyString
  | String a rest =>
      match lstrip s with
      | EmptyString => EmptyString
      | _ => String a (rstrip rest)
      end
  end.

(** [str.strip()] *)
Definition strip (s : string) : string := rstrip (lstrip s).

(** The lines of a text as [for line in f] yields them, without their
    terminator (a text-mode file has only ["\n"] terminators). *)
Fixpoint text_lines_aux (cur : string) (s : string) : list string :=
  match s with
  | EmptyString =>
      match cur with EmptyString => [] | _ => [cur] end
  | String a rest =>
      if Ascii.eqb a "010"%char then cur :: text_lines_aux EmptyString rest
      else text_lines_aux (cur ++ String a EmptyString) rest
  end.

Definition text_lines (s : string) : list string :=
  text_lines_aux EmptyString s.

(** [str.splitlines()]: the line boundaries are ["\n"], ["\r"], ["\r\n"],
    ["\v"], ["\f"], ["\x1c"], ["\x1d"], ["\x1e"] and, in their UTF-8
    encoding, U+0085, U+2028 and U+2029. *)
Definition is_line_break (a : ascii) : bool :=
  let n := nat_of_ascii a in
  ((10 <=? n)%nat && (n <=? 13)%nat) || ((28 <=? n)%nat && (n <=? 30)%nat).

Fixpoint splitlines_aux (cur : string) (s : string) : list string :=
  match s with
  | EmptyString =>
      match cur with EmptyString => [] | _ => [cur] end
  | String a rest =>
      if Ascii.eqb a "013"%char then
        match rest with
        | String b rest' =>
            if Ascii.eqb b "010"%char
            then cur :: splitlines_aux EmptyString rest'
            else cur :: splitlines_aux EmptyString rest
        | EmptyString => [cur]
        end
      else if is_line_break a then cur :: splitlines_aux EmptyString rest
      else
        match rest with
        | String b rest' =>
            if Ascii.eqb a "194"%char && Ascii.eqb b "133"%char
            then cur :: splitlines_aux EmptyString rest'
            else
              match rest' with
              | String c rest'' =>
                  if Ascii.eqb a "226"%char && Ascii.eqb b "128"%char
                     && (Ascii.eqb c "168"%char || Ascii.eqb c "169"%char)
                  then cur :: splitlines_aux EmptyString rest''
                  else splitlines_aux (cur ++ String a EmptyString) rest
              | EmptyString =>
                  splitlines_aux (cur ++ String a EmptyString) rest
              end
        | EmptyString => splitlines_aux (cur ++ String a EmptyString) rest
        end
  end.

Definition splitlines (s : string) : list string :=
  splitlines_aux EmptyString s.

(** ** Sorting names: [list.sort] on [str] *)

Module StringOrder <: TotalLeBool.
Definition t := string.
Definition leb : t -> t -> bool := String.leb.
Definition leb_total
  : forall a1 a2, leb a1 a2 = true \/ leb a2 a1 = true := String.leb_total.
End StringOrder.

Module StringSort := Sort StringOrder.

Definition sort (names : list string) : list string := StringSort.sort names.

(** ** The [os] module *)

(** [os.name]: which [os.path] the script runs on.  Windows comes with
    the lowercasing of strings that its [os.path.normcase] applies; the
    table of that lowercasing is not part of the script, and the
    platform is taken with any. *)
Inductive os_name : Type :=
| posix
| nt (lowercase : string -> string).

Definition path : Type := list string.

(** The file system as the script reads it. *)
Record filesystem : Type := {
  listdir : path -> result (list string);  (* os.listdir *)
  isdir : path -> bool;                    (* os.path.isdir *)
  isfile : path -> bool;                   (* os.path.isfile *)
  exists_ : path -> bool;                  (* os.path.exists *)
  getsize : path -> result Z;              (* os.path.getsize *)
  read_text : path -> result string        (* open(p, 'r', encoding='utf-8').read() *)
}.

(** [os.path.join(d, e)] for a name [e] returned by [os.listdir]. *)
Definition join (d : path) (e : string) : path := d ++ [e].

Section Platform.

Variable os : os_name.

(** [os.sep] *)
Definition sep_char : ascii :=
  match os with
  | posix => "/"%char
  | nt _ => "\"%char
  end.

Definition sep : string := String sep_char EmptyString.

(** [os.path.normcase]: the identity on POSIX; on Windows it turns
    slashes into backslashes and lowers the case. *)
Definition normcase (s : string) : string :=
  match os with
  | posix => s
  | nt lowercase => lowercase (replace_char "/"%char "\"%char s)
  end.

(** The number of leading components on which [start] and [p] agree. *)
Fixpoint common_prefix (start p : path) : nat :=
  match start, p with
  | e1 :: start', e2 :: p' =>
      if String.eqb (normcase e1) (normcase e2)
      then S (common_prefix start' p') else O
  | _, _ => O
  end.

(** [os.path.relpath(p, start)] on absolute, normalised paths. *)
Definition relpath (p start : path) : string :=
  let i := common_prefix start p in
  let rel_list := repeat ".." (List.length start - i) ++ skipn i p in
  match rel_list with
  | [] => "."
  | _ => String.concat sep rel_list
  end.

(** ** Configuration constants *)

(** [os.path.basename(__file__)] *)
Variable SCRIPT_FILE : string.

Definition OUTPUT_FILE : string := "project_structure.txt".
Definition PROJECT_IGNORE_FILE : string := ".projectignore".
Definition PROJECT_HEADER_FILE : string := ".projectheader".
Definition PROJECT_FOOTER_FILE : string := ".projectfooter".
Definition INDENT_CHAR : string := TAB.
Definition ARROW : string := "->".
Definition IGNORE_HIDDEN_FILES : bool := false.
Definition EMPTY_FILE_PLACEHOLDER : string := "[not yet implemented]".
Definition OMITTED_TEXT : string := "[omitted for brevity]".
Definition MAX_FILE_SIZE : Z := 1000000.

(** The set literal of line 69. *)
Definition reserved_names : list string :=
  [SCRIPT_FILE; OUTPUT_FILE; PROJECT_IGNORE_FILE; PROJECT_HEADER_FILE;
   PROJECT_FOOTER_FILE].

Definition is_reserved (entry : string) : bool :=
  existsb (String.eqb entry) reserved_names.

(** ** [any_match] *)

Fixpoint any_match (p : string) (patterns : list string) : bool :=
  match patterns with
  | [] => false
  | pattern :: rest =>
      if String.eqb (normcase pattern) (normcase p) then true
      else any_match p rest
  end.

(** ** [load_ignore_patterns] and [read_optional_file] *)

(** [patterns.add(line)] on a set kept as a duplicate-free list. *)
Fixpoint set_add (x : string) (s : list string) : list string :=
  match s with
  | [] => [x]
  | y :: s' => if String.eqb x y then s else y :: set_add x s'
  end.

Definition add_pattern (patterns : list string) (line : string)
  : list string :=
  let line := strip line in
  match line with
  | EmptyString => patterns
  | _ => if negb (startswith "#"%char line) then set_add line patterns
         else patterns
  end.

Definition load_ignore_patterns (fs : filesystem) (file_path : path)
  : result (list string) :=
  if exists_ fs file_path then
    match read_text fs file_path with
    | Ok text => Ok (fold_left add_pattern (text_lines text) [])
    | Raise msg => Raise msg
    end
  else Ok [].

Definition read_optional_file (fs : filesystem) (file_path : path)
  : result string :=
  if exists_ fs file_path then
    match read_text fs file_path with
    | Ok text => Ok (strip text)
    | Raise msg => Raise msg
    end
  else Ok EmptyString.

(** ** [include_file_contents] *)

Definition TRUNCATED_TEXT : string :=
  "[File content truncated due to size limitations]".

Definition error_line (msg : string) : string :=
  "[Error reading file: " ++ msg ++ "]".

Definition FENCE : string := "```".

(** The body of the [try]: every call that can raise comes before the
    first [append] of its branch, so an exception leaves [content_lines]
    as it was on entry. *)
Definition include_file_contents_try (fs : filesystem) (file_path : path)
  (content_lines : list string) (is_ignored : bool) : result (list string) :=
  match getsize fs file_path with
  | Raise msg => Raise msg
  | Ok file_size =>
      if (file_size =? 0)%Z then
        Ok (content_lines ++ [EMPTY_FILE_PLACEHOLDER])
      else if is_ignored then
        Ok (content_lines ++ [OMITTED_TEXT])
      else if (file_size >? MAX_FILE_SIZE)%Z then
        Ok (content_lines ++ [TRUNCATED_TEXT])
      else
        match read_text fs file_path with
        | Raise msg => Raise msg
        | Ok content =>
            let content_lines :=
              if negb is_ignored then content_lines ++ [FENCE]
              else content_lines in
            let content_lines := content_lines ++ splitlines content in
            let content_lines :=
              if negb is_ignored then content_lines ++ [FENCE]
              else content_lines in
            Ok content_lines
        end
  end.

Definition include_file_contents (fs : filesystem) (file_path : path)
  (content_lines : list string) (is_ignored : bool) : list string :=
  match include_file_contents_try fs file_path content_lines is_ignored with
  | Ok content_lines' => content_lines'
  | Raise msg => content_lines ++ [error_line msg]
  end.

(** ** [collect_file_content] *)

Definition BLOCK_END : string := NL ++ "---" ++ NL.

Definition label (relative_file_path : string) : string :=
  replace_char "/"%char sep_char relative_file_path ++ ":" ++ NL.

Definition collect_file_content (fs : filesystem) (file_path : path)
  (content_lines : list string) (relative_file_path : string)
  (is_ignored : bool) : list string :=
  let content_lines := content_lines ++ [label relative_file_path] in
  let content_lines :=
    include_file_contents fs file_path content_lines is_ignored in
  content_lines ++ [BLOCK_END].

(** ** [collect_structure_and_contents] *)

(** The two lists the traversal appends to:
    [(structure_lines, content_lines)]. *)
Definition lists : Type := (list string * list string)%type.

Definition entry_line (indent_level : nat) (name : string) : string :=
  str_repeat INDENT_CHAR indent_level ++ ARROW ++ " " ++ name.

(** Lines 65-70: one step of the loop that separates the entries. *)
Definition separate_step (fs : filesystem) (current_dir : path)
  (acc : list string * list string) (entry : string)
  : list string * list string :=
  let '(dirs, files) := acc in
  let entry_path := join current_dir entry in
  if isdir fs entry_path then (dirs ++ [entry], files)
  else if isfile fs entry_path && negb (is_reserved entry)
       then (dirs, files ++ [entry])
       else (dirs, files).

Definition separate (fs : filesystem) (current_dir : path)
  (entries : list string) : list string * list string :=
  fold_left (separate_step fs current_dir) entries ([], []).

(** Lines 87-91: the body of the loop over the files. *)
Definition process_file (fs : filesystem) (current_dir : path)
  (indent_level : nat) (ignore_patterns : list string) (root_dir : path)
  (file_entry : string) (st : lists) : outcome lists :=
  let '(structure_lines, content_lines) := st in
  let file_path := join current_dir file_entry in
  let relative_file_path := relpath file_path root_dir in
  let structure_lines :=
    structure_lines ++ [entry_line indent_level file_entry] in
  let content_lines :=
    collect_file_content fs file_path content_lines relative_file_path
      (any_match relative_file_path ignore_patterns) in
  Returns (structure_lines, content_lines).

(** Lines 76-84: the body of the loop over the directories; [recurse] is
    the recursive call of line 84. *)
Definition process_dir (recurse : path -> lists -> nat -> outcome lists)
  (current_dir : path) (indent_level : nat) (ignore_patterns : list string)
  (root_dir : path) (dir_entry : string) (st : lists) : outcome lists :=
  let '(structure_lines, content_lines) := st in
  let dir_path := join current_dir dir_entry in
  let relative_dir_path := relpath dir_path root_dir in
  if any_match relative_dir_path ignore_patterns then
    let structure_lines :=
      structure_lines ++ [entry_line indent_level dir_entry] in
    let structure_lines :=
      structure_lines ++ [entry_line (indent_level + 1) OMITTED_TEXT] in
    Returns (structure_lines, content_lines)
  else
    let structure_lines :=
      structure_lines ++ [entry_line indent_level dir_entry] in
    recurse dir_path (structure_lines, content_lines) (indent_level + 1).

Fixpoint collect_structure_and_contents (fuel : nat) (fs : filesystem)
  (current_dir : path) (st : lists) (indent_level : nat)
  (ignore_patterns : list string) (root_dir : path) : outcome lists :=
  match fuel with
  | O => OutOfFuel
  | S fuel' =>
      entries <- lift (listdir fs current_dir) ;;
      let entries :=
        filter (fun e => negb (IGNORE_HIDDEN_FILES && startswith "."%char e))
          entries in
      let '(dirs, files) := separate fs current_dir entries in
      let dirs := sort dirs in
      let files := sort files in
      (* Process directories *)
      st <- for_each dirs
              (process_dir
                 (fun dir_path st indent_level =>
                    collect_structure_and_contents fuel' fs dir_path st
                      indent_level ignore_patterns root_dir)
                 current_dir indent_level ignore_patterns root_dir) st ;;
      (* Process files *)
      for_each files
        (process_file fs current_dir indent_level ignore_patterns root_dir) st
  end.

(** ** [write_structure] *)

Definition write_lines (lines : list string) : string :=
  String.concat EmptyString (map (fun line => (line ++ NL)%string) lines).

(** The text written to the output file. *)
Definition write_structure (fuel : nat) (fs : filesystem) (root_dir : path)
  : outcome string :=
  ignore_patterns <-
    lift (load_ignore_patterns fs (join root_dir PROJECT_IGNORE_FILE)) ;;
  st <- collect_structure_and_contents fuel fs root_dir ([], []) 0
          ignore_patterns root_dir ;;
  let '(structure_lines, content_lines) := st in
  header_content <-
    lift (read_optional_file fs (join root_dir PROJECT_HEADER_FILE)) ;;
  footer_content <-
    lift (read_optional_file fs (join root_dir PROJECT_FOOTER_FILE)) ;;
  Returns
    ((match header_content with
      | EmptyString => EmptyString
      | _ => header_content ++ NL ++ NL ++ "---" ++ NL ++ NL
      end)
     ++ "Project Repository Structure:" ++ NL ++ NL
     ++ write_lines structure_lines
     ++ NL ++ "---" ++ NL ++ NL
     ++ write_lines content_lines
     ++ (match footer_content with
         | EmptyString => EmptyString
         | _ => footer_content ++ NL
         end))%string.

End Platform.

Set Warnings "-register-all".

(** ** Directory trees as file systems

    A finite tree presented through the [filesystem] interface, for
    running the script on concrete inputs. *)

Inductive node : Type :=
| Dir (entries : list (string * node))
| LockedDir (msg : string)                 (* a directory that cannot be listed *)
| File (size : result Z) (text : result string)
| Special (present : bool).                (* neither a directory nor a regular file *)

Fixpoint lookup (name : string) (entries : list (string * node))
  : option node :=
  match entries with
  | [] => None
  | (n, t) :: rest => if String.eqb n name then Some t else lookup name rest
  end.

Fixpoint find (t : node) (p : path) : option node :=
  match p with
  | [] => Some t
  | name :: p' =>
      match t with
      | Dir entries =>
          match lookup name entries with
          | Some t' => find t' p'
          | None => None
          end
      | _ => None
      end
  end.

(** [p] without the leading [root], when [p] is at or below [root]. *)
Fixpoint below (root p : path) : option path :=
  match root, p with
  | [], _ => Some p
  | r :: root', c :: p' => if String.eqb r c then below root' p' else None
  | _ :: _, [] => None
  end.

Definition node_at (root : path) (t : node) (p : path) : option node :=
  match below root p with
  | Some rel => find t rel
  | None => None
  end.

(** The tree [t] mounted at [root]. *)
Definition tree_fs (root : path) (t : node) : filesystem := {|
  listdir p :=
    match node_at root t p with
    | Some (Dir entries) => Ok (map fst entries)
    | Some (LockedDir msg) => Raise msg
    | Some _ => Raise "[Errno 20] Not a directory"
    | None => Raise "[Errno 2] No such file or directory"
    end;
  isdir p :=
    match node_at root t p with
    | Some (Dir _) | Some (LockedDir _) => true
    | _ => false
    end;
  isfile p :=
    match node_at root t p with
    | Some (File _ _) => true
    | _ => false
    end;
  exists_ p :=
    match node_at root t p with
    | Some (Special present) => present
    | Some _ => true
    | None => false
    end;
  getsize p :=
    match node_at root t p with
    | Some (File size _) => size
    | Some (Dir _) | Some (LockedDir _) => Ok 4096%Z
    | _ => Raise "[Errno 2] No such file or directory"
    end;
  read_text p :=
    match node_at root t p with
    | Some (File _ text) => text
    | Some (Dir _) | Some (LockedDir _) => Raise "[Errno 21] Is a directory"
    | _ => Raise "[Errno 2] No such file or directory"
    end
|}.

(** A readable regular file with the given text. *)
Definition regular (text : string) : node :=
  File (Ok (Z.of_nat (String.length text))) (Ok text).

(** The round-trip scenario: [/proj] with [a.txt], an empty [b.txt], an
    ignored [c.txt] and [sub/d.txt]. *)
Definition proj : path := ["proj"].

Definition scenario (ignore : string) : node :=
  Dir [ ("c.txt", regular "secret");
        ("sub", Dir [("d.txt", regular "world")]);
        (".projectignore", regular ignore);
        ("b.txt", regular EmptyString);
        ("a.txt", regular "hi") ].

Definition SCRIPT : string := "generate_project_structure.py".

(** ** Vocabulary of the statements *)

(** An entry the traversal lists: a directory, the marker under an
    ignored directory, or a file; [indent] is its depth. *)
Inductive visit : Type :=
| DirEntry (indent : nat) (dir : path) (name : string)
| Omission (indent : nat)
| FileEntry (indent : nat) (dir : path) (name : string).

(** The structure line of an entry. *)
Definition structure_line (v : visit) : string :=
  match v with
  | DirEntry indent _ name => entry_line indent name
  | Omission indent => entry_line indent OMITTED_TEXT
  | FileEntry indent _ name => entry_line indent name
  end.

(** The body of a file's content block. *)
Definition block_body (os : os_name) (fs : filesystem)
  (ignore_patterns : list string) (root_dir : path) (file_path : path)
  : list string :=
  include_file_contents fs file_path []
    (any_match os (relpath os file_path root_dir) ignore_patterns).

(** The content block of an entry: a label line, a body and a separator
    for a file, nothing for the other entries. *)
Definition content_block (os : os_name) (fs : filesystem)
  (ignore_patterns : list string) (root_dir : path) (v : visit)
  : list string :=
  match v with
  | FileEntry _ dir name =>
      [label os (relpath os (join dir name) root_dir)]
        ++ block_body os fs ignore_patterns root_dir (join dir name)
        ++ [BLOCK_END]
  | _ => []
  end.

(** What the file system says of a listed entry. *)
Definition visit_ok (SCRIPT_FILE : string) (fs : filesystem) (v : visit)
  : Prop :=
  match v with
  | DirEntry _ dir name => isdir fs (join dir name) = true
  | Omission _ => True
  | FileEntry _ dir name =>
      isdir fs (join dir name) = false
      /\ isfile fs (join dir name) = true
      /\ is_reserved SCRIPT_FILE name = false
  end.


(** [a] comes before [b] in [l]. *)
Definition precedes (a b : string) (l : list string) : Prop :=
  exists l1 l2 l3, l = l1 ++ [a] ++ l2 ++ [b] ++ l3.

(** Case-sensitive lexical order of names. *)
Definition lex_le (a b : string) : Prop := String.leb a b = true.

(** A line indented by more than [indent] levels. *)
Definition deeper (indent : nat) (line : string) : Prop :=
  exists rest, line = (str_repeat INDENT_CHAR (S indent) ++ rest)%string.

(** The entries of [current_dir] that line 67 takes as directories and
    line 69 as files. *)
Definition is_dir_entry (fs : filesystem) (current_dir : path)
  (entry : string) : bool :=
  isdir fs (join current_dir entry).

Definition is_file_entry (SCRIPT_FILE : string) (fs : filesystem)
  (current_dir : path) (entry : string) : bool :=
  negb (isdir fs (join current_dir entry))
  && (isfile fs (join current_dir entry)
      && negb (is_reserved SCRIPT_FILE entry)).

(** Equality of paths. *)
Fixpoint path_eqb (p q : path) : bool :=
  match p, q with
  | [], [] => true
  | a :: p', b :: q' => String.eqb a b && path_eqb p' q'
  | _, _ => false
  end.

(** [p] is at or below [d]; [p] is strictly below [d]. *)
Definition at_or_below (d p : path) : Prop := exists rest, p = d ++ rest.
Definition strictly_below (d p : path) : Prop :=
  exists rest, rest <> [] /\ p = d ++ rest.

(** [fs'] is [fs] except, possibly, strictly below [d]: the listing of
    [d] and everything about the paths under it. *)
Definition agree_outside (d : path) (fs fs' : filesystem) : Prop :=
  (forall p, ~ at_or_below d p -> listdir fs' p = listdir fs p)
  /\ (forall p, ~ strictly_below d p ->
        isdir fs' p = isdir fs p /\ isfile fs' p = isfile fs p
        /\ getsize fs' p = getsize fs p /\ read_text fs' p = read_text fs p).

(** [fs'] has the directories, listings and file kinds of [fs]; sizes and
    texts may differ. *)
Definition same_shape (fs fs' : filesystem) : Prop :=
  forall p, listdir fs' p = listdir fs p /\ isdir fs' p = isdir fs p
            /\ isfile fs' p = isfile fs p.

(** [fs] with the entry [name] taken out of the listing of [dir]. *)
Definition without (fs : filesystem) (dir : path) (name : string)
  : filesystem := {|
  listdir p :=
    if path_eqb p dir then
      match listdir fs p with
      | Ok entries => Ok (filter (fun e => negb (String.eqb e name)) entries)
      | Raise msg => Raise msg
      end
    else listdir fs p;
  isdir := isdir fs;
  isfile := isfile fs;
  exists_ := exists_ fs;
  getsize := getsize fs;
  read_text := read_text fs
|}.

(** [fs'] lists the entries of every directory of [fs] in another
    order. *)
Definition relisted (fs fs' : filesystem) : Prop :=
  (forall p,
      match listdir fs p, listdir fs' p with
      | Ok entries, Ok entries' => Permutation entries entries'
      | Raise msg, Raise msg' => msg = msg'
      | _, _ => False
      end)
  /\ (forall p, isdir fs' p = isdir fs p /\ isfile fs' p = isfile fs p
                /\ exists_ fs' p = exists_ fs p
                /\ getsize fs' p = getsize fs p
                /\ read_text fs' p = read_text fs p).

(** The directories the traversal from [root_dir] walks, with their
    depth: the root, and every unignored subdirectory listed in a walked
    directory. *)
Inductive walked (os : os_name) (fs : filesystem)
  (ignore_patterns : list string) (root_dir : path) : path -> nat -> Prop :=
| walked_root : walked os fs ignore_patterns root_dir root_dir 0
| walked_sub current_dir indent entries d :
    walked os fs ignore_patterns root_dir current_dir indent ->
    listdir fs current_dir = Ok entries ->
    In d entries ->
    isdir fs (join current_dir d) = true ->
    any_match os (relpath os (join current_dir d) root_dir) ignore_patterns
      = false ->
    walked os fs ignore_patterns root_dir (join current_dir d) (S indent).


Definition indent_of (v : visit) : nat :=
  match v with
  | DirEntry indent _ _ => indent
  | Omission indent => indent
  | FileEntry indent _ _ => indent
  end.

(** [c], a piece of the traversal on [fs], lists entries: whenever it
    returns, what it appended to the two lists are the structure lines
    and the content blocks of entries [vs] at depth [depth] or more, and
    [c'], the same piece on [fs'], lists the same entries. *)
Definition traced (os : os_name) (SCRIPT_FILE : string)
  (fs fs' : filesystem) (ignore_patterns : list string) (root_dir : path)
  (depth : nat) (c c' : lists -> outcome lists) : Prop :=
  forall sl cl sl' cl',
    c (sl, cl) = Returns (sl', cl') ->
    exists vs,
      Forall (visit_ok SCRIPT_FILE fs) vs
      /\ Forall (fun v => depth <= indent_of v) vs
      /\ sl' = sl ++ map structure_line vs
      /\ cl' = cl ++ flat_map (content_block os fs ignore_patterns root_dir) vs
      /\ forall sl0 cl0,
           c' (sl0, cl0)
           = Returns
               (sl0 ++ map structure_line vs,
                cl0 ++ flat_map
                         (content_block os fs' ignore_patterns root_dir) vs).


(** The lines of the directories [dirs] at depth [indent], each followed
    by the lines [subs] gives for what is below it. *)
Fixpoint dir_listing (indent : nat) (dirs : list string)
  (subs : list (list string)) : list string :=
  match dirs, subs with
  | d :: dirs', sub :: subs' =>
      entry_line indent d :: sub ++ dir_listing indent dirs' subs'
  | _, _ => []
  end.

(** An entry line at depth [indent] or less. *)
Definition at_most (indent : nat) (line : string) : Prop :=
  exists j name, j <= indent /\ line = entry_line j name.

(** The list [post] does not go on below depth [indent]. *)
Definition shallow_next (indent : nat) (post : list string) : Prop :=
  match post with
  | [] => True
  | line :: _ => at_most indent line
  end.

(** The directory [d] at depth [indent] is listed in [sl] with the
    omission marker, and nothing else, below it. *)
Definition listed_omitted (indent : nat) (d : string) (sl : list string)
  : Prop :=
  exists pre post,
    sl = pre ++ [entry_line indent d; entry_line (S indent) OMITTED_TEXT]
           ++ post
    /\ shallow_next indent post.

(** What the lines below a directory of the loop are. *)
Definition sub_listing (os : os_name) (ignore_patterns : list string) (root_dir : path)
  (current_dir : path) (indent : nat) (d : string) (sub : list string)
  : Prop :=
  Forall (deeper indent) sub
  /\ (any_match os (relpath os (join current_dir d) root_dir) ignore_patterns
      = true ->
      sub = [entry_line (S indent) OMITTED_TEXT]).

(** The entry [name] of [dir] is one that lines 67-70 put in neither
    list: not a directory, and not a regular file or a reserved name. *)
Definition unlisted (SCRIPT_FILE : string) (fs : filesystem) (dir : path)
  (name : string) : Prop :=
  isdir fs (join dir name) = false
  /\ (isfile fs (join dir name) = false
      \/ is_reserved SCRIPT_FILE name = true).

(** [fs'] is [fs] except, possibly, for the entry [name] of [dir]:
    whether [dir] lists it, and what is at its path. *)
Definition same_but_entry (dir : path) (name : string)
  (fs fs' : filesystem) : Prop :=
  (forall p,
      match listdir fs p, listdir fs' p with
      | Ok entries, Ok entries' =>
          if path_eqb p dir
          then filter (fun e => negb (String.eqb e name)) entries'
               = filter (fun e => negb (String.eqb e name)) entries
          else entries' = entries
      | Raise msg, Raise msg' => msg' = msg
      | _, _ => False
      end)
  /\ (forall p, p <> join dir name ->
        isdir fs' p = isdir fs p /\ isfile fs' p = isfile fs p
        /\ exists_ fs' p = exists_ fs p
        /\ getsize fs' p = getsize fs p /\ read_text fs' p = read_text fs p).

(** [fs] with the size query and the read of the file at [file_path]
    replaced. *)
Definition with_file (fs : filesystem) (file_path : path) (size : result Z)
  (text : result string) : filesystem := {|
  listdir := listdir fs;
  isdir := isdir fs;
  isfile := isfile fs;
  exists_ := exists_ fs;
  getsize p := if path_eqb p file_path then size else getsize fs p;
  read_text p := if path_eqb p file_path then text else read_text fs p
|}.

(** [fs] with every listing returned in the reverse order. *)
Definition reversed (fs : filesystem) : filesystem := {|
  listdir p :=
    match listdir fs p with
    | Ok entries => Ok (rev entries)
    | Raise msg => Raise msg
    end;
  isdir := isdir fs;
  isfile := isfile fs;
  exists_ := exists_ fs;
  getsize := getsize fs;
  read_text := read_text fs
|}.

(** What a run returns, or two empty lists. *)
Definition returned (run : outcome lists) : lists :=
  match run with
  | Returns st => st
  | _ => ([], [])
  end.

(** The round-trip scenario with [c.txt] ignored, and its lists. *)
Definition scenario_fs : filesystem := tree_fs proj (scenario "c.txt").

Definition scenario_lists : lists :=
  Eval vm_compute in
    returned
      (collect_structure_and_contents posix SCRIPT 3 scenario_fs proj
         ([], []) 0 ["c.txt"] proj).

(** The scenario with [sub] ignored. *)
Definition sub_ignored_fs : filesystem := tree_fs proj (scenario "sub").

(** A tree with an ignored directory inside an ignored directory. *)
Definition nested : node :=
  Dir [ ("sub", Dir [ ("inner", Dir [("e.txt", regular "deep")]) ]) ].

Definition nested_fs : filesystem := tree_fs proj nested.

Definition nested_lists : lists :=
  Eval vm_compute in
    returned
      (collect_structure_and_contents posix SCRIPT 4 nested_fs proj
         ([], []) 0 ["sub"; "sub/inner"] proj).

(** A tree with a dangling symbolic link and a socket. *)
Definition with_specials : node :=
  Dir [ ("dangling", Special false);
        ("a.txt", regular "hi");
        ("run", Dir [("daemon.sock", Special true)]) ].

Definition specials_fs : filesystem := tree_fs proj with_specials.

Definition inner_ignored_lists : lists :=
  Eval vm_compute in
    returned
      (collect_structure_and_contents posix SCRIPT 4 nested_fs proj
         ([], []) 0 ["sub/inner"] proj).

(** The scenario after a run has written its output file. *)
Definition after_run : node :=
  Dir [ ("project_structure.txt", regular "Project Repository Structure:");
        ("sub", Dir [("d.txt", regular "world")]);
        (".projectheader", regular "A header");
        ("a.txt", regular "hi") ].

Definition after_run_fs : filesystem := tree_fs proj after_run.


(** White space beyond ASCII, in UTF-8: U+00A0, U+2028 and U+3000. *)
Definition NBSP : string := String "194"%char (String "160"%char EmptyString).
Definition LINE_SEPARATOR : string :=
  String "226"%char (String "128"%char (String "168"%char EmptyString)).
Definition IDEOGRAPHIC_SPACE : string :=
  String "227"%char (String "128"%char (String "128"%char EmptyString)).

(** The scenario with an ignore list that has comments, blank lines,
    padding and a repeated line. *)
Definition ignore_text : string :=
  "# build output" ++ NL ++ NBSP ++ " dist " ++ IDEOGRAPHIC_SPACE ++ NL ++ NL
  ++ "node_modules" ++ NL
  ++ "dist" ++ NL ++ "  # indented comment" ++ NL
  ++ "src/gen # not a comment" ++ NL.

Definition commented_ignore_fs : filesystem :=
  with_file scenario_fs (join proj PROJECT_IGNORE_FILE) (Ok 97%Z)
    (Ok ignore_text).

(** The scenario with [a.txt] of the given size. *)
Definition sized_fs (size : Z) : filesystem :=
  with_file scenario_fs (join proj "a.txt") (Ok size) (Ok "hi").

(** The outcome [r] of a run from two empty lists, seen from the lists
    [sl] and [cl]: what the run appended comes after them. *)
Definition after (sl cl : list string) (r : outcome lists) : outcome lists :=
  match r with
  | Returns (ds, dc) => Returns (sl ++ ds, cl ++ dc)
  | Raises msg => Raises msg
  | OutOfFuel => OutOfFuel
  end.

(** The directory [dir] lists the entry [name]. *)
Definition listed (fs : filesystem) (dir : path) (name : string) : Prop :=
  exists entries, listdir fs dir = Ok entries /\ In name entries.

(** [dir] is [indent] levels below [root_dir]. *)
Definition at_depth (root_dir dir : path) (indent : nat) : Prop :=
  exists rel, dir = root_dir ++ rel /\ List.length rel = indent.

(** The entry [v] is in the tree: a directory or a file is an entry of a
    directory that the traversal walks, at the depth of its indentation,
    and of the kind it is listed as; an omission marker stands under an
    ignored directory. *)
Definition entry_in_tree (os : os_name) (SCRIPT_FILE : string)
  (fs : filesystem) (ignore_patterns : list string) (root_dir : path)
  (v : visit) : Prop :=
  match v with
  | DirEntry indent dir name =>
      walked os fs ignore_patterns root_dir dir indent
      /\ at_depth root_dir dir indent
      /\ listed fs dir name
      /\ is_dir_entry fs dir name = true
  | Omission indent =>
      exists dir name,
        walked os fs ignore_patterns root_dir dir (pred indent)
        /\ indent = S (pred indent)
        /\ listed fs dir name
        /\ is_dir_entry fs dir name = true
        /\ any_match os (relpath os (join dir name) root_dir) ignore_patterns
           = true
  | FileEntry indent dir name =>
      walked os fs ignore_patterns root_dir dir indent
      /\ at_depth root_dir dir indent
      /\ listed fs dir name
      /\ is_file_entry SCRIPT_FILE fs dir name = true
  end.

(** Whenever [c] returns, what it appended to the two lists are the
    structure lines and the content blocks of entries that satisfy [P]. *)
Definition lists_only (os : os_name) (fs : filesystem)
  (ignore_patterns : list string) (root_dir : path) (P : visit -> Prop)
  (c : lists -> outcome lists) : Prop :=
  forall sl cl sl' cl',
    c (sl, cl) = Returns (sl', cl') ->
    exists vs,
      Forall P vs
      /\ sl' = sl ++ map structure_line vs
      /\ cl' = cl ++ flat_map (content_block os fs ignore_patterns root_dir) vs.


(** [fs] with a regular file of the given text as the entry [name] of
    [dir], in place of what was there. *)
Definition with_regular_file (fs : filesystem) (dir : path) (name : string)
  (text : string) : filesystem := {|
  listdir p :=
    if path_eqb p dir then
      match listdir fs p with
      | Ok entries =>
          Ok (name :: filter (fun e => negb (String.eqb e name)) entries)
      | Raise msg => Raise msg
      end
    else listdir fs p;
  isdir p := if path_eqb p (join dir name) then false else isdir fs p;
  isfile p := if path_eqb p (join dir name) then true else isfile fs p;
  exists_ p := if path_eqb p (join dir name) then true else exists_ fs p;
  getsize p :=
    if path_eqb p (join dir name) then Ok (Z.of_nat (String.length text))
    else getsize fs p;
  read_text p :=
    if path_eqb p (join dir name) then Ok text else read_text fs p
|}.

(** A tree with a directory that cannot be listed. *)
Definition locked : node :=
  Dir [ ("a.txt", regular "hi");
        ("private", LockedDir "[Errno 13] Permission denied") ].

Definition locked_fs : filesystem := tree_fs proj locked.

(** The scenario with a padded, commented ignore list, and with a header
    of white space only. *)
Definition padded_ignore_fs : filesystem :=
  with_regular_file scenario_fs proj PROJECT_IGNORE_FILE
    ("# generated" ++ NL ++ NBSP ++ "c.txt  " ++ NL ++ NL ++ "c.txt" ++ NL).

Definition blank_header_fs : filesystem :=
  with_regular_file scenario_fs proj PROJECT_HEADER_FILE
    (NBSP ++ " " ++ NL ++ LINE_SEPARATOR ++ NL).

(** * Properties *)

(** ** Ignore-pattern matching *)

Lemma any_match_spec (os : os_name) (p : string) (patterns : list string) :
  any_match os p patterns = true
  <-> exists pattern, In pattern patterns /\ normcase os pattern = normcase os p.
Proof.
  induction patterns as [|q rest IH]; simpl.
  - split; [discriminate | intros (x & [] & _)].
  - destruct (String.eqb (normcase os q) (normcase os p)) eqn:E.
    + apply String.eqb_eq in E. split; [|reflexivity].
      intros _. exists q. auto.
    + apply String.eqb_neq in E. rewrite IH. split.
      * intros (x & Hin & Hx). exists x. auto.
      * intros (x & [-> | Hin] & Hx); [contradiction|]. exists x. auto.
Qed.

Lemma any_match_false (os : os_name) (p : string) (patterns : list string) :
  any_match os p patterns = false
  <-> forall pattern, In pattern patterns -> normcase os pattern <> normcase os p.
Proof.
  rewrite <- Bool.not_true_iff_false, any_match_spec. split.
  - intros H q Hin Heq. apply H. exists q. auto.
  - intros H (q & Hin & Heq). exact (H q Hin Heq).
Qed.

Lemma lower_ascii_replace_slash (s : string) :
  lower_ascii (replace_char "/"%char "\"%char s)
  = replace_char "/"%char "\"%char (lower_ascii s).
Proof.
  induction s as [|a s IH]; simpl; [reflexivity|]. rewrite IH. f_equal.
  destruct a as [[] [] [] [] [] [] [] []]; reflexivity.
Qed.

(** C6, as the code has it: a path matches when it equals a pattern after
    [os.path.normcase].  On POSIX that is equality of the strings, letter
    case included.  On Windows it is equality after slashes are turned
    into backslashes and the platform's lowercasing is applied; so there
    two strings with the same lowercase match, the lowercasing leaving
    the slashes alone.  Nothing but this equality matches: no wildcard,
    no substring. *)
Theorem any_match_is_normcase_equality :
  (forall os p patterns,
      any_match os p patterns = true
      <-> exists pattern,
            In pattern patterns /\ normcase os pattern = normcase os p)
  /\ (forall p patterns, any_match posix p patterns = true <-> In p patterns)
  /\ (forall lowercase p pattern,
        any_match (nt lowercase) p [pattern] = true
        <-> lowercase (replace_char "/"%char "\"%char pattern)
            = lowercase (replace_char "/"%char "\"%char p))
  /\ (forall lowercase p pattern,
        (forall s, lowercase (replace_char "/"%char "\"%char s)
                   = replace_char "/"%char "\"%char (lowercase s)) ->
        lowercase pattern = lowercase p ->
        any_match (nt lowercase) p [pattern] = true).
Proof.
  split; [exact any_match_spec|]. split; [|split].
  - intros p patterns. rewrite any_match_spec. simpl. split.
    + intros (q & Hin & ->). exact Hin.
    + intros Hin. exists p. auto.
  - intros lowercase p pattern. rewrite any_match_spec. simpl. split.
    + intros (q & [<- | []] & Hq). exact Hq.
    + intros H. exists pattern. auto.
  - intros lowercase p pattern Hcomm H. apply any_match_spec. exists pattern.
    split; [left; reflexivity|]. simpl.
    rewrite !Hcomm, H. reflexivity.
Qed.

(** C6, as the spec states it, fails on POSIX: two names that differ only
    in letter case do not match. *)
Lemma any_match_case_sensitive_on_posix :
  lower_ascii "readme.md" = lower_ascii "README.md"
  /\ any_match posix "README.md" ["readme.md"] = false
  /\ ~ (forall os p pattern,
          lower_ascii pattern = lower_ascii p ->
          any_match os p [pattern] = true).
Proof.
  split; [reflexivity|]. split; [reflexivity|].
  intros H. specialize (H posix "README.md" "readme.md" eq_refl).
  discriminate H.
Qed.

(** ** Relative paths *)

Lemma common_prefix_below (os : os_name) (root_dir rel : path) :
  common_prefix os root_dir (root_dir ++ rel) = List.length root_dir.
Proof.
  induction root_dir as [|r root_dir IH]; simpl.
  - destruct rel; reflexivity.
  - rewrite String.eqb_refl, IH. reflexivity.
Qed.

(** The relative path of what is below the root is made of the
    components below the root, joined by [os.sep]. *)
Lemma relpath_below (os : os_name) (root_dir rel : path) :
  relpath os (root_dir ++ rel) root_dir
  = match rel with
    | [] => "."
    | _ => String.concat (sep os) rel
    end.
Proof.
  unfold relpath. rewrite common_prefix_below, Nat.sub_diag. simpl.
  replace (skipn (List.length root_dir) (root_dir ++ rel)) with rel;
    [reflexivity|].
  induction root_dir as [|r root_dir IH]; simpl; auto.
Qed.

(** ** Content blocks *)

Section Blocks.

Variable os : os_name.
Variable SCRIPT_FILE : string.

(** [include_file_contents] only appends. *)
Lemma include_file_contents_app (fs : filesystem) (file_path : path)
  (content_lines : list string) (is_ignored : bool) :
  include_file_contents fs file_path content_lines is_ignored
  = content_lines ++ include_file_contents fs file_path [] is_ignored.
Proof.
  unfold include_file_contents, include_file_contents_try.
  destruct (getsize fs file_path) as [size|msg]; [|reflexivity].
  destruct (size =? 0)%Z; [reflexivity|].
  destruct is_ignored; [reflexivity|].
  destruct (size >? MAX_FILE_SIZE)%Z; [reflexivity|].
  destruct (read_text fs file_path) as [text|msg]; [|reflexivity].
  simpl. rewrite <- !app_assoc. reflexivity.
Qed.

(** A content block is a label line, a body and a separator. *)
Lemma collect_file_content_block (fs : filesystem) (file_path : path)
  (content_lines : list string) (relative_file_path : string)
  (is_ignored : bool) :
  collect_file_content os fs file_path content_lines relative_file_path
    is_ignored
  = content_lines
      ++ [label os relative_file_path]
      ++ include_file_contents fs file_path [] is_ignored
      ++ [BLOCK_END].
Proof.
  unfold collect_file_content.
  rewrite include_file_contents_app, <- !app_assoc. reflexivity.
Qed.

Lemma process_file_visit (fs : filesystem) (current_dir : path)
  (indent_level : nat) (ignore_patterns : list string) (root_dir : path)
  (file_entry : string) (structure_lines content_lines : list string) :
  process_file os fs current_dir indent_level ignore_patterns root_dir
    file_entry (structure_lines, content_lines)
  = Returns
      (structure_lines
         ++ [structure_line (FileEntry indent_level current_dir file_entry)],
       content_lines
         ++ content_block os fs ignore_patterns root_dir
              (FileEntry indent_level current_dir file_entry)).
Proof.
  unfold process_file. rewrite collect_file_content_block. reflexivity.
Qed.

(** C2: a file whose size is zero gets the empty-file placeholder as the
    body of its block, whether or not it is ignored. *)
Theorem empty_file_placeholder (fs : filesystem) (current_dir : path)
  (indent_level : nat) (ignore_patterns : list string) (root_dir : path)
  (file_entry : string) (structure_lines content_lines : list string)
  (is_ignored : bool) :
  getsize fs (join current_dir file_entry) = Ok 0%Z ->
  include_file_contents fs (join current_dir file_entry) content_lines
    is_ignored
  = content_lines ++ [EMPTY_FILE_PLACEHOLDER]
  /\ process_file os fs current_dir indent_level ignore_patterns root_dir
       file_entry (structure_lines, content_lines)
     = Returns
         (structure_lines ++ [entry_line indent_level file_entry],
          content_lines
            ++ [label os (relpath os (join current_dir file_entry) root_dir);
                EMPTY_FILE_PLACEHOLDER; BLOCK_END]).
Proof.
  intros Hsize.
  assert (H : forall cl ign,
             include_file_contents fs (join current_dir file_entry) cl ign
             = cl ++ [EMPTY_FILE_PLACEHOLDER]).
  { intros cl ign. unfold include_file_contents, include_file_contents_try.
    rewrite Hsize. reflexivity. }
  split; [apply H|].
  unfold process_file. rewrite collect_file_content_block, H. reflexivity.
Qed.

(** C3: a file of nonzero size whose relative path matches an ignore
    pattern gets the omission placeholder as the body of its block,
    whatever its size; its text is not read, so a file system that
    differs in that text gives the same block. *)
Theorem ignored_file_omitted (fs : filesystem) (current_dir : path)
  (indent_level : nat) (ignore_patterns : list string) (root_dir : path)
  (file_entry : string) (structure_lines content_lines : list string)
  (size : Z) :
  getsize fs (join current_dir file_entry) = Ok size ->
  size <> 0%Z ->
  any_match os (relpath os (join current_dir file_entry) root_dir)
    ignore_patterns = true ->
  process_file os fs current_dir indent_level ignore_patterns root_dir
    file_entry (structure_lines, content_lines)
  = Returns
      (structure_lines ++ [entry_line indent_level file_entry],
       content_lines
         ++ [label os (relpath os (join current_dir file_entry) root_dir);
             OMITTED_TEXT; BLOCK_END])
  /\ forall fs',
       getsize fs' (join current_dir file_entry) = Ok size ->
       process_file os fs' current_dir indent_level ignore_patterns root_dir
         file_entry (structure_lines, content_lines)
       = process_file os fs current_dir indent_level ignore_patterns root_dir
           file_entry (structure_lines, content_lines).
Proof.
  intros Hsize Hnz Hign.
  assert (H : forall fs0,
             getsize fs0 (join current_dir file_entry) = Ok size ->
             process_file os fs0 current_dir indent_level ignore_patterns
               root_dir file_entry (structure_lines, content_lines)
             = Returns
                 (structure_lines ++ [entry_line indent_level file_entry],
                  content_lines
                    ++ [label os
                          (relpath os (join current_dir file_entry) root_dir);
                        OMITTED_TEXT; BLOCK_END])).
  { intros fs0 H0. unfold process_file.
    rewrite collect_file_content_block, Hign.
    unfold include_file_contents, include_file_contents_try. rewrite H0.
    apply Z.eqb_neq in Hnz. rewrite Hnz. reflexivity. }
  split; [apply H; exact Hsize|].
  intros fs' Hsize'. rewrite (H fs' Hsize'), (H fs Hsize). reflexivity.
Qed.



End Blocks.

(** ** Loops *)

Lemma for_each_app {A S : Type} (xs ys : list A)
  (body : A -> S -> outcome S) (st : S) :
  for_each (xs ++ ys) body st
  = (st' <- for_each xs body st ;; for_each ys body st').
Proof.
  revert st. induction xs as [|x xs IH]; intros st; simpl; [reflexivity|].
  destruct (body x st); simpl; auto.
Qed.

Lemma for_each_ext {A S : Type} (xs : list A)
  (body body' : A -> S -> outcome S) :
  (forall x st, In x xs -> body x st = body' x st) ->
  forall st, for_each xs body st = for_each xs body' st.
Proof.
  induction xs as [|x xs IH]; intros H st; simpl; [reflexivity|].
  rewrite (H x st (or_introl eq_refl)).
  destruct (body' x st); simpl; auto.
  apply IH. intros y st' Hy. apply H. right. exact Hy.
Qed.


Lemma filter_absorb {A : Type} (f g : A -> bool) (l : list A) :
  (forall x, In x l -> f x = true -> g x = true) ->
  filter f (filter g l) = filter f l.
Proof.
  induction l as [|a l IH]; intros H; simpl; [reflexivity|].
  destruct (g a) eqn:Ega; simpl.
  - destruct (f a); rewrite IH; auto.
    all: intros x Hx; apply H; right; exact Hx.
  - destruct (f a) eqn:Efa.
    + rewrite (H a (or_introl eq_refl) Efa) in Ega. discriminate.
    + apply IH. intros x Hx. apply H. right. exact Hx.
Qed.

(** ** The order of names *)

Lemma string_compare_OT (a b : string) :
  String.compare a b = OrdersEx.String_as_OT.compare a b.
Proof. revert b. induction a; destruct b; simpl; auto. Qed.

Lemma lex_le_cases (a b : string) :
  lex_le a b <-> a = b \/ OrdersEx.String_as_OT.lt a b.
Proof.
  unfold lex_le, String.leb. rewrite string_compare_OT.
  destruct (OrdersEx.String_as_OT.compare_spec a b) as [Heq | Hlt | Hgt].
  - split; auto.
  - split; auto.
  - split; [discriminate|]. intros [-> | Hlt]; exfalso.
    + exact (StrictOrder_Irreflexive b Hgt).
    + apply (StrictOrder_Irreflexive a). etransitivity; eassumption.
Qed.

Lemma lex_le_trans : Transitive lex_le.
Proof.
  intros a b c Hab Hbc. apply lex_le_cases in Hab, Hbc. apply lex_le_cases.
  destruct Hab as [-> | Hab]; [exact Hbc|].
  destruct Hbc as [<- | Hbc]; [right; exact Hab|].
  right. etransitivity; eassumption.
Qed.

Lemma lex_le_antisym (a b : string) : lex_le a b -> lex_le b a -> a = b.
Proof. apply String.leb_antisym. Qed.

Lemma sort_sorted (names : list string) : StronglySorted lex_le (sort names).
Proof. apply StringSort.StronglySorted_sort. exact lex_le_trans. Qed.

Lemma sort_perm (names : list string) : Permutation names (sort names).
Proof. apply StringSort.Permuted_sort. Qed.

Lemma in_sort (names : list string) (x : string) :
  In x (sort names) <-> In x names.
Proof.
  split; apply Permutation_in; [symmetry|]; apply sort_perm.
Qed.

(** A list of names has one sorted arrangement. *)
Lemma sorted_unique (l1 l2 : list string) :
  StronglySorted lex_le l1 -> StronglySorted lex_le l2 ->
  Permutation l1 l2 -> l1 = l2.
Proof.
  revert l2. induction l1 as [|a l1 IH]; intros l2 H1 H2 Hp.
  - apply Permutation_nil in Hp. subst. reflexivity.
  - destruct l2 as [|b l2].
    + symmetry in Hp. apply Permutation_nil in Hp. discriminate.
    + inversion H1 as [|? ? S1 F1]; subst.
      inversion H2 as [|? ? S2 F2]; subst.
      assert (Hab : a = b).
      { assert (Ha : In a (b :: l2))
          by (eapply Permutation_in; [exact Hp | left; reflexivity]).
        assert (Hb : In b (a :: l1))
          by (eapply Permutation_in; [symmetry; exact Hp | left; reflexivity]).
        destruct Ha as [-> | Ha]; [reflexivity|].
        destruct Hb as [-> | Hb]; [reflexivity|].
        rewrite Forall_forall in F1, F2.
        apply lex_le_antisym; auto. }
      subst b. f_equal. apply IH; auto.
      eapply Permutation_cons_inv. exact Hp.
Qed.

Lemma sort_permutation (l1 l2 : list string) :
  Permutation l1 l2 -> sort l1 = sort l2.
Proof.
  intros Hp. apply sorted_unique; try apply sort_sorted.
  rewrite <- (sort_perm l1), <- (sort_perm l2). exact Hp.
Qed.

(** ** The traversal lists entries *)

Section Traversal.

Variable os : os_name.
Variable SCRIPT_FILE : string.

Local Abbreviation collect := (collect_structure_and_contents os SCRIPT_FILE).

Lemma separate_filter (fs : filesystem) (current_dir : path)
  (entries : list string) :
  separate SCRIPT_FILE fs current_dir entries
  = (filter (is_dir_entry fs current_dir) entries,
     filter (is_file_entry SCRIPT_FILE fs current_dir) entries).
Proof.
  unfold separate.
  enough (H : forall dirs files,
             fold_left (separate_step SCRIPT_FILE fs current_dir) entries
               (dirs, files)
             = (dirs ++ filter (is_dir_entry fs current_dir) entries,
                files
                  ++ filter (is_file_entry SCRIPT_FILE fs current_dir) entries))
    by apply (H [] []).
  induction entries as [|e entries IH]; intros dirs files; simpl.
  - rewrite !app_nil_r. reflexivity.
  - unfold is_dir_entry, is_file_entry.
    destruct (isdir fs (join current_dir e)); simpl.
    + rewrite IH, <- app_assoc. reflexivity.
    + destruct (isfile fs (join current_dir e) && negb (is_reserved SCRIPT_FILE e));
        rewrite IH; [rewrite <- app_assoc|]; reflexivity.
Qed.

Lemma hidden_entries_kept (entries : list string) :
  filter (fun e => negb (IGNORE_HIDDEN_FILES && startswith "."%char e)) entries
  = entries.
Proof.
  induction entries as [|e entries IH]; simpl; [reflexivity|].
  f_equal. exact IH.
Qed.

(** One level of [collect_structure_and_contents]. *)
Lemma collect_S (fuel : nat) (fs : filesystem) (current_dir : path)
  (st : lists) (indent_level : nat) (ignore_patterns : list string)
  (root_dir : path) :
  collect (S fuel) fs current_dir st indent_level ignore_patterns root_dir
  = match listdir fs current_dir with
    | Raise msg => Raises msg
    | Ok entries =>
        st1 <- for_each (sort (filter (is_dir_entry fs current_dir) entries))
                 (process_dir os
                    (fun dir_path st indent_level =>
                       collect fuel fs dir_path st indent_level
                         ignore_patterns root_dir)
                    current_dir indent_level ignore_patterns root_dir) st ;;
        for_each
          (sort (filter (is_file_entry SCRIPT_FILE fs current_dir) entries))
          (process_file os fs current_dir indent_level ignore_patterns
             root_dir) st1
    end.
Proof.
  cbn [collect_structure_and_contents].
  destruct (listdir fs current_dir) as [entries|msg]; [|reflexivity].
  cbn [lift bind]. rewrite hidden_entries_kept, separate_filter. reflexivity.
Qed.

Section Traced.

Variables fs fs' : filesystem.
Variable ignore_patterns : list string.
Variable root_dir : path.

Local Abbreviation traced :=
  (traced os SCRIPT_FILE fs fs' ignore_patterns root_dir).

Lemma traced_seq (d : nat) (c c' k k' : lists -> outcome lists) :
  traced d c c' -> traced d k k' ->
  traced d (fun st => st1 <- c st ;; k st1) (fun st => st1 <- c' st ;; k' st1).
Proof.
  intros Hc Hk sl cl sl' cl' H.
  destruct (c (sl, cl)) as [[sl1 cl1]| |] eqn:E1; simpl in H; try discriminate.
  destruct (Hc _ _ _ _ E1) as (vs1 & Hok1 & Hd1 & -> & -> & Hc').
  destruct (Hk _ _ _ _ H) as (vs2 & Hok2 & Hd2 & -> & -> & Hk').
  exists (vs1 ++ vs2).
  rewrite !Forall_app, map_app, !flat_map_app, !app_assoc.
  repeat split; auto.
  intros sl0 cl0. rewrite Hc'. simpl. rewrite Hk', !app_assoc. reflexivity.
Qed.

Lemma traced_for_each {A : Type} (d : nat) (xs : list A)
  (body body' : A -> lists -> outcome lists) :
  (forall x, In x xs -> traced d (body x) (body' x)) ->
  traced d (for_each xs body) (for_each xs body').
Proof.
  induction xs as [|x xs IH]; intros H.
  - intros sl cl sl' cl' Hc. simpl in Hc. injection Hc as <- <-.
    exists []. simpl. rewrite !app_nil_r. repeat split; auto.
    intros sl0 cl0. rewrite !app_nil_r. reflexivity.
  - simpl. apply traced_seq.
    + apply H. left. reflexivity.
    + apply IH. intros y Hy. apply H. right. exact Hy.
Qed.

Lemma traced_process_file (current_dir : path) (indent_level : nat)
  (file_entry : string) :
  is_file_entry SCRIPT_FILE fs current_dir file_entry = true ->
  traced indent_level
    (process_file os fs current_dir indent_level ignore_patterns root_dir
       file_entry)
    (process_file os fs' current_dir indent_level ignore_patterns root_dir
       file_entry).
Proof.
  intros Hf sl cl sl' cl' H. rewrite process_file_visit in H.
  injection H as <- <-.
  exists [FileEntry indent_level current_dir file_entry].
  unfold is_file_entry in Hf.
  apply andb_prop in Hf as [Hd Hf]. apply andb_prop in Hf as [Hf Hr].
  apply negb_true_iff in Hd, Hr.
  split; [repeat constructor; assumption|].
  split; [repeat constructor|].
  cbn [map flat_map]. rewrite !app_nil_r.
  repeat split. intros sl0 cl0. apply process_file_visit.
Qed.

Lemma traced_process_dir
  (recurse recurse' : path -> lists -> nat -> outcome lists)
  (current_dir : path) (indent_level : nat) (dir_entry : string) :
  isdir fs (join current_dir dir_entry) = true ->
  (forall p,
      traced (S indent_level) (fun st => recurse p st (S indent_level))
        (fun st => recurse' p st (S indent_level))) ->
  traced indent_level
    (process_dir os recurse current_dir indent_level ignore_patterns root_dir
       dir_entry)
    (process_dir os recurse' current_dir indent_level ignore_patterns root_dir
       dir_entry).
Proof.
  intros Hd Hrec sl cl sl' cl' H. unfold process_dir in *.
  rewrite Nat.add_1_r in *.
  destruct (any_match os (relpath os (join current_dir dir_entry) root_dir)
              ignore_patterns).
  - injection H as <- <-.
    exists [DirEntry indent_level current_dir dir_entry;
            Omission (S indent_level)].
    split; [repeat constructor; assumption|].
    split; [repeat constructor; simpl; lia|].
    cbn [map flat_map content_block structure_line].
    rewrite <- !app_assoc, !app_nil_r. repeat split.
    intros sl0 cl0. rewrite <- !app_assoc, !app_nil_r. reflexivity.
  - destruct (Hrec _ _ _ _ _ H) as (vs & Hok & Hdepth & -> & -> & Hrec').
    exists (DirEntry indent_level current_dir dir_entry :: vs).
    split; [constructor; assumption|].
    split; [constructor; [simpl; lia|]|].
    { eapply Forall_impl; [|exact Hdepth]. simpl. intros v Hv. lia. }
    cbn [map flat_map content_block structure_line app].
    rewrite <- !app_assoc. repeat split.
    intros sl0 cl0. rewrite Hrec', <- !app_assoc. reflexivity.
Qed.

End Traced.

(** Whatever the sizes and texts of the files, the traversal lists the
    same entries, and gives each file of them its content block. *)
Lemma collect_traced (fs fs' : filesystem) (ignore_patterns : list string)
  (root_dir : path) :
  same_shape fs fs' ->
  forall fuel current_dir indent_level,
    traced os SCRIPT_FILE fs fs' ignore_patterns root_dir indent_level
      (fun st =>
         collect fuel fs current_dir st indent_level ignore_patterns root_dir)
      (fun st =>
         collect fuel fs' current_dir st indent_level ignore_patterns root_dir).
Proof.
  intros Hshape fuel. induction fuel as [|fuel IH]; intros cur indent.
  - intros sl cl sl' cl' H. discriminate H.
  - intros sl cl sl' cl' H. rewrite collect_S in H.
    destruct (Hshape cur) as (Hl & _).
    destruct (listdir fs cur) as [entries|msg] eqn:El; [|discriminate].
    assert (Hdirs : filter (is_dir_entry fs' cur) entries
                    = filter (is_dir_entry fs cur) entries).
    { apply filter_ext. intros e. unfold is_dir_entry.
      apply (Hshape (join cur e)). }
    assert (Hfiles : filter (is_file_entry SCRIPT_FILE fs' cur) entries
                     = filter (is_file_entry SCRIPT_FILE fs cur) entries).
    { apply filter_ext. intros e. unfold is_file_entry.
      destruct (Hshape (join cur e)) as (_ & -> & ->). reflexivity. }
    assert (Hseq :
              traced os SCRIPT_FILE fs fs' ignore_patterns root_dir indent
                (fun st =>
                   st1 <- for_each
                            (sort (filter (is_dir_entry fs cur) entries))
                            (process_dir os
                               (fun p st0 i =>
                                  collect fuel fs p st0 i ignore_patterns
                                    root_dir)
                               cur indent ignore_patterns root_dir) st ;;
                   for_each
                     (sort (filter (is_file_entry SCRIPT_FILE fs cur) entries))
                     (process_file os fs cur indent ignore_patterns root_dir)
                     st1)
                (fun st =>
                   st1 <- for_each
                            (sort (filter (is_dir_entry fs cur) entries))
                            (process_dir os
                               (fun p st0 i =>
                                  collect fuel fs' p st0 i ignore_patterns
                                    root_dir)
                               cur indent ignore_patterns root_dir) st ;;
                   for_each
                     (sort (filter (is_file_entry SCRIPT_FILE fs cur) entries))
                     (process_file os fs' cur indent ignore_patterns root_dir)
                     st1)).
    { apply traced_seq.
      - apply traced_for_each. intros d Hd. apply traced_process_dir.
        + apply in_sort, filter_In in Hd. exact (proj2 Hd).
        + intros p. apply IH.
      - apply traced_for_each. intros f Hf. apply traced_process_file.
        apply in_sort, filter_In in Hf. exact (proj2 Hf). }
    destruct (Hseq _ _ _ _ H) as (vs & Hok & Hdepth & -> & -> & Hfs').
    exists vs. repeat split; auto.
    intros sl0 cl0. rewrite collect_S, Hl, Hdirs, Hfiles. apply Hfs'.
Qed.


Lemma same_shape_refl (fs : filesystem) : same_shape fs fs.
Proof. intros p. auto. Qed.




(** *** The traversal returns *)






(** *** The order of the entries of a directory *)

Lemma string_app_assoc (a b c : string) :
  ((a ++ b) ++ c = a ++ (b ++ c))%string.
Proof.
  induction a as [|x a IH]; simpl; [reflexivity|]. rewrite IH. reflexivity.
Qed.

Lemma str_repeat_add (s : string) (a b : nat) :
  str_repeat s (a + b) = (str_repeat s a ++ str_repeat s b)%string.
Proof.
  induction a as [|a IH]; simpl; [reflexivity|].
  rewrite IH, string_app_assoc. reflexivity.
Qed.

Lemma deeper_entry_line (indent j : nat) (name : string) :
  indent < j -> deeper indent (entry_line j name).
Proof.
  intros Hlt. unfold deeper, entry_line.
  replace j with (S indent + (j - S indent)) by lia.
  rewrite str_repeat_add, string_app_assoc. eexists. reflexivity.
Qed.

(** A line at depth [indent] or less is not a deeper line. *)
Lemma at_most_not_deeper (indent : nat) (line : string) :
  at_most indent line -> ~ deeper indent line.
Proof.
  intros (j & name & Hj & ->) (rest & Hrest). revert indent Hj rest Hrest.
  induction j as [|j IH]; intros indent Hj rest Hrest.
  - discriminate Hrest.
  - destruct indent as [|indent]; [lia|].
    unfold entry_line in *. simpl in Hrest. injection Hrest as Hrest.
    apply (IH indent ltac:(lia) rest). exact Hrest.
Qed.

Lemma process_file_loop (fs : filesystem) (current_dir : path)
  (indent_level : nat) (ignore_patterns : list string) (root_dir : path)
  (files : list string) :
  forall sl cl sl' cl',
    for_each files
      (process_file os fs current_dir indent_level ignore_patterns root_dir)
      (sl, cl) = Returns (sl', cl') ->
    sl' = sl ++ map (entry_line indent_level) files.
Proof.
  induction files as [|f files IH]; intros sl cl sl' cl' H;
    cbn [for_each] in H.
  - injection H as <- _. rewrite app_nil_r. reflexivity.
  - rewrite process_file_visit in H. cbn [bind] in H.
    apply IH in H. rewrite H, <- app_assoc. reflexivity.
Qed.

Lemma collect_deeper (fuel : nat) (fs : filesystem) (current_dir : path)
  (indent : nat) (ignore_patterns : list string) (root_dir : path)
  (sl cl sl' cl' : list string) :
  collect fuel fs current_dir (sl, cl) (S indent) ignore_patterns root_dir
  = Returns (sl', cl') ->
  exists lines, sl' = sl ++ lines /\ Forall (deeper indent) lines.
Proof.
  intros H.
  destruct (collect_traced fs fs ignore_patterns root_dir (same_shape_refl fs)
              fuel current_dir (S indent) _ _ _ _ H)
    as (vs & _ & Hdepth & -> & _).
  exists (map structure_line vs). split; [reflexivity|].
  apply Forall_map. eapply Forall_impl; [|exact Hdepth].
  intros [i d n|i|i d n] Hv; simpl in *; apply deeper_entry_line; lia.
Qed.

Lemma process_dir_lines (fuel : nat) (fs : filesystem) (current_dir : path)
  (indent : nat) (ignore_patterns : list string) (root_dir : path)
  (d : string) (sl cl sl' cl' : list string) :
  process_dir os
    (fun p st i => collect fuel fs p st i ignore_patterns root_dir)
    current_dir indent ignore_patterns root_dir d (sl, cl)
  = Returns (sl', cl') ->
  exists sub,
    sub_listing os ignore_patterns root_dir current_dir indent d sub
    /\ sl' = sl ++ entry_line indent d :: sub.
Proof.
  unfold process_dir, sub_listing. rewrite Nat.add_1_r.
  destruct (any_match os (relpath os (join current_dir d) root_dir)
              ignore_patterns); intros H.
  - injection H as <- _. exists [entry_line (S indent) OMITTED_TEXT].
    rewrite <- app_assoc. repeat split; auto.
    repeat constructor. apply deeper_entry_line. lia.
  - apply collect_deeper in H as (lines & -> & Hdeep).
    exists lines. rewrite <- app_assoc. repeat split; auto. discriminate.
Qed.

Lemma process_dir_loop (fuel : nat) (fs : filesystem) (current_dir : path)
  (indent : nat) (ignore_patterns : list string) (root_dir : path)
  (dirs : list string) :
  forall sl cl sl' cl',
    for_each dirs
      (process_dir os
         (fun p st i => collect fuel fs p st i ignore_patterns root_dir)
         current_dir indent ignore_patterns root_dir) (sl, cl)
    = Returns (sl', cl') ->
    exists subs,
      Forall2 (sub_listing os ignore_patterns root_dir current_dir indent)
        dirs subs
      /\ sl' = sl ++ dir_listing indent dirs subs.
Proof.
  induction dirs as [|d dirs IH]; intros sl cl sl' cl' H; simpl in H.
  - injection H as <- _. exists []. rewrite app_nil_r. auto.
  - match type of H with
    | bind ?c _ = _ => destruct c as [[sl1 cl1]| |] eqn:E; try discriminate
    end.
    simpl in H. apply process_dir_lines in E as (sub & Hsub & ->).
    apply IH in H as (subs & Hsubs & ->).
    exists (sub :: subs). split; [constructor; assumption|].
    simpl. rewrite <- !app_assoc. reflexivity.
Qed.

(** One level of the traversal: the directories in order, each with what
    is below it, then the files in order. *)
Lemma collect_level (fuel : nat) (fs : filesystem) (current_dir : path)
  (indent : nat) (ignore_patterns : list string) (root_dir : path)
  (entries : list string) (sl cl sl' cl' : list string) :
  listdir fs current_dir = Ok entries ->
  collect fuel fs current_dir (sl, cl) indent ignore_patterns root_dir
  = Returns (sl', cl') ->
  exists subs,
    Forall2 (sub_listing os ignore_patterns root_dir current_dir indent)
      (sort (filter (is_dir_entry fs current_dir) entries)) subs
    /\ sl' = sl
             ++ dir_listing indent
                  (sort (filter (is_dir_entry fs current_dir) entries)) subs
             ++ map (entry_line indent)
                  (sort (filter (is_file_entry SCRIPT_FILE fs current_dir)
                           entries)).
Proof.
  intros Hl H. destruct fuel as [|fuel]; [discriminate|].
  rewrite collect_S, Hl in H.
  match type of H with
  | bind ?c _ = _ => destruct c as [[sl1 cl1]| |] eqn:E; try discriminate
  end.
  simpl in H. apply process_dir_loop in E as (subs & Hsubs & ->).
  apply process_file_loop in H. subst sl'.
  exists subs. rewrite <- app_assoc. auto.
Qed.

Lemma dir_listing_in (indent : nat) (x : string) (dirs : list string) :
  In x dirs ->
  forall subs, List.length subs = List.length dirs ->
  exists l1 l2, dir_listing indent dirs subs = l1 ++ entry_line indent x :: l2.
Proof.
  induction dirs as [|d dirs IH]; intros Hin subs Hlen; [contradiction|].
  destruct subs as [|sub subs]; [discriminate|]. simpl.
  destruct Hin as [-> | Hin].
  - exists [], (sub ++ dir_listing indent dirs subs). reflexivity.
  - destruct (IH Hin subs ltac:(simpl in Hlen; lia)) as (l1 & l2 & ->).
    exists (entry_line indent d :: sub ++ l1), l2.
    simpl. rewrite <- app_assoc. reflexivity.
Qed.

(** C5: at every level, the structure list has the subdirectories first,
    in case-sensitive lexical order, each followed by the deeper lines of
    what is below it, and then the files, in case-sensitive lexical
    order; so the line of a subdirectory comes before the line of any
    file of the same directory. *)
Theorem directories_before_files_sorted (fuel : nat) (fs : filesystem)
  (current_dir : path) (indent : nat) (ignore_patterns : list string)
  (root_dir : path) (entries : list string) (sl cl sl' cl' : list string) :
  listdir fs current_dir = Ok entries ->
  collect fuel fs current_dir (sl, cl) indent ignore_patterns root_dir
  = Returns (sl', cl') ->
  exists dirs files subs,
    Permutation dirs (filter (is_dir_entry fs current_dir) entries)
    /\ StronglySorted lex_le dirs
    /\ Permutation files
         (filter (is_file_entry SCRIPT_FILE fs current_dir) entries)
    /\ StronglySorted lex_le files
    /\ List.length subs = List.length dirs
    /\ Forall (Forall (deeper indent)) subs
    /\ sl' = sl ++ dir_listing indent dirs subs
               ++ map (entry_line indent) files
    /\ forall x y, In x dirs -> In y files ->
         precedes (entry_line indent x) (entry_line indent y)
           (dir_listing indent dirs subs ++ map (entry_line indent) files).
Proof.
  intros Hl H.
  destruct (collect_level _ _ _ _ _ _ _ _ _ _ _ Hl H) as (subs & Hsubs & ->).
  exists (sort (filter (is_dir_entry fs current_dir) entries)),
    (sort (filter (is_file_entry SCRIPT_FILE fs current_dir) entries)), subs.
  assert (Hlen : List.length subs
                 = List.length
                     (sort (filter (is_dir_entry fs current_dir) entries)))
    by (symmetry; eapply Forall2_length; exact Hsubs).
  split; [symmetry; apply sort_perm|].
  split; [apply sort_sorted|].
  split; [symmetry; apply sort_perm|].
  split; [apply sort_sorted|].
  split; [exact Hlen|].
  split.
  { clear - Hsubs. induction Hsubs as [|d sub ds subs' [Hd _] _ IH];
      constructor; assumption. }
  split; [reflexivity|].
  intros x y Hx Hy.
  destruct (dir_listing_in indent x _ Hx subs Hlen) as (l1 & l2 & ->).
  apply in_split in Hy as (m1 & m2 & ->).
  exists l1, (l2 ++ map (entry_line indent) m1), (map (entry_line indent) m2).
  unfold precedes. rewrite map_app. simpl.
  rewrite <- ?app_assoc. simpl. rewrite <- ?app_assoc. reflexivity.
Qed.


(** *** Ignored directories *)

Lemma at_most_le (k k' : nat) (line : string) :
  k <= k' -> at_most k line -> at_most k' line.
Proof. intros Hk (j & n & Hj & ->). exists j, n. split; [lia | reflexivity]. Qed.

Lemma shallow_next_le (k k' : nat) (post : list string) :
  k <= k' -> shallow_next k post -> shallow_next k' post.
Proof. destruct post; simpl; [auto|]. apply at_most_le. Qed.

Lemma shallow_next_app (k : nat) (l post : list string) :
  shallow_next k l -> shallow_next k post -> shallow_next k (l ++ post).
Proof. destruct l; simpl; auto. Qed.

Lemma shallow_next_files (indent : nat) (files : list string) :
  shallow_next indent (map (entry_line indent) files).
Proof.
  destruct files as [|f files]; simpl; [exact I|].
  exists indent, f. auto.
Qed.

Lemma shallow_next_dirs {R : string -> list string -> Prop} (indent : nat)
  (dirs : list string) (subs : list (list string)) :
  Forall2 R dirs subs -> shallow_next indent (dir_listing indent dirs subs).
Proof.
  intros [|d sub ds ss _ _]; simpl; [exact I|]. exists indent, d. auto.
Qed.

Lemma dir_listing_omitted (ignore_patterns : list string) (root_dir : path)
  (current_dir : path) (indent : nat) (d : string) (dirs : list string)
  (subs : list (list string)) :
  Forall2 (sub_listing os ignore_patterns root_dir current_dir indent)
    dirs subs ->
  In d dirs ->
  any_match os (relpath os (join current_dir d) root_dir) ignore_patterns
  = true ->
  exists pre post,
    dir_listing indent dirs subs
    = pre ++ [entry_line indent d; entry_line (S indent) OMITTED_TEXT] ++ post
    /\ shallow_next indent post.
Proof.
  intros Hsubs Hin Hign.
  induction Hsubs as [|x sub ds ss Hx Hrest IH]; [contradiction|].
  destruct Hin as [-> | Hin].
  - destruct Hx as [_ Hx]. rewrite (Hx Hign).
    exists [], (dir_listing indent ds ss). split; [reflexivity|].
    eapply shallow_next_dirs. exact Hrest.
  - destruct (IH Hin) as (pre & post & Heq & Hpost).
    exists (entry_line indent x :: sub ++ pre), post.
    split; [|exact Hpost]. simpl. rewrite Heq, <- app_assoc. reflexivity.
Qed.

(** In the lines of one level, an ignored directory has the marker and
    nothing else below it. *)
Lemma collect_level_omitted (fuel : nat) (fs : filesystem)
  (current_dir : path) (indent : nat) (ignore_patterns : list string)
  (root_dir : path) (entries : list string) (d : string)
  (sl cl sl' cl' : list string) :
  listdir fs current_dir = Ok entries ->
  In d entries ->
  isdir fs (join current_dir d) = true ->
  any_match os (relpath os (join current_dir d) root_dir) ignore_patterns
  = true ->
  collect fuel fs current_dir (sl, cl) indent ignore_patterns root_dir
  = Returns (sl', cl') ->
  exists pre post,
    sl' = sl ++ pre
            ++ [entry_line indent d; entry_line (S indent) OMITTED_TEXT]
            ++ post
    /\ shallow_next indent post.
Proof.
  intros Hl Hin Hd Hign H.
  destruct (collect_level _ _ _ _ _ _ _ _ _ _ _ Hl H) as (subs & Hsubs & ->).
  destruct (dir_listing_omitted _ _ _ _ d _ _ Hsubs) as (pre & post & -> & Hp).
  - apply in_sort, filter_In. auto.
  - exact Hign.
  - exists pre,
      (post ++ map (entry_line indent)
                 (sort (filter (is_file_entry SCRIPT_FILE fs current_dir)
                          entries))).
    split; [rewrite <- !app_assoc; reflexivity|].
    apply shallow_next_app; [exact Hp | apply shallow_next_files].
Qed.

Lemma for_each_split {A S : Type} (l1 l2 : list A) (x : A)
  (body : A -> S -> outcome S) (st st' : S) :
  for_each (l1 ++ x :: l2) body st = Returns st' ->
  exists sa sb,
    for_each l1 body st = Returns sa /\ body x sa = Returns sb
    /\ for_each l2 body sb = Returns st'.
Proof.
  rewrite for_each_app. intros H.
  destruct (for_each l1 body st) as [sa| |]; try discriminate.
  cbn [bind for_each] in H.
  destruct (body x sa) as [sb| |] eqn:E; try discriminate.
  exists sa, sb. auto.
Qed.

(** The traversal from the root calls itself on every walked directory,
    and what follows the lines of that call is not below it. *)
Lemma walked_call (fuel : nat) (fs : filesystem)
  (ignore_patterns : list string) (root_dir : path) (sl cl : list string)
  (current_dir : path) (indent : nat) :
  walked os fs ignore_patterns root_dir current_dir indent ->
  collect fuel fs root_dir ([], []) 0 ignore_patterns root_dir
  = Returns (sl, cl) ->
  exists fuel' sl1 cl1 sl2 cl2 post,
    collect fuel' fs current_dir (sl1, cl1) indent ignore_patterns root_dir
    = Returns (sl2, cl2)
    /\ sl = sl2 ++ post /\ shallow_next indent post.
Proof.
  intros Hw Hrun. induction Hw as [|cur indent entries d Hw IH Hl Hin Hd Hign].
  - exists fuel, [], [], sl, cl, []. rewrite app_nil_r. simpl. auto.
  - destruct IH as (fuel' & sl1 & cl1 & sl2 & cl2 & post & Hcall & -> & Hpost).
    destruct fuel' as [|f]; [discriminate|].
    rewrite collect_S, Hl in Hcall.
    match type of Hcall with
    | bind ?c _ = _ => destruct c as [[sla cla]| |] eqn:E; try discriminate
    end.
    cbn [bind] in Hcall. apply process_file_loop in Hcall. subst sl2.
    assert (Hind : In d (sort (filter (is_dir_entry fs cur) entries)))
      by (apply in_sort, filter_In; auto).
    apply in_split in Hind as (l1 & l2 & Hsplit). rewrite Hsplit in E.
    apply for_each_split in E as ([slb clb] & [slc clc] & _ & Hdcall & Hl2).
    apply process_dir_loop in Hl2 as (subs & Hsubs & ->).
    unfold process_dir in Hdcall. rewrite Hign, Nat.add_1_r in Hdcall.
    exists f, (slb ++ [entry_line indent d]), clb, slc, clc.
    eexists. split; [exact Hdcall|].
    split; [rewrite <- !app_assoc; reflexivity|].
    apply shallow_next_le with (k := indent); [lia|].
    apply shallow_next_app; [eapply shallow_next_dirs; exact Hsubs|].
    apply shallow_next_app; [apply shallow_next_files | exact Hpost].
Qed.

Lemma walked_below (fs : filesystem) (ignore_patterns : list string)
  (root_dir current_dir : path) (indent : nat) :
  walked os fs ignore_patterns root_dir current_dir indent ->
  at_or_below root_dir current_dir.
Proof.
  induction 1 as [|cur indent entries d _ (rel & ->) _ _ _ _].
  - exists []. rewrite app_nil_r. reflexivity.
  - exists (rel ++ [d]). unfold join. rewrite app_assoc. reflexivity.
Qed.

Lemma below_entry (d current_dir : path) (e : string) :
  at_or_below d (join current_dir e) ->
  d = join current_dir e \/ at_or_below d current_dir.
Proof.
  intros (rest & H). unfold join in *.
  induction rest as [|x r _] using rev_ind.
  - left. rewrite app_nil_r in H. symmetry. exact H.
  - rewrite app_assoc in H. apply app_inj_tail in H as [-> _].
    right. exists r. reflexivity.
Qed.

Lemma strictly_below_entry (d current_dir : path) (e : string) :
  strictly_below d (join current_dir e) -> at_or_below d current_dir.
Proof.
  intros (rest & Hne & H). unfold join in *.
  induction rest as [|x r _] using rev_ind; [contradiction|].
  rewrite app_assoc in H. apply app_inj_tail in H as [-> _].
  exists r. reflexivity.
Qed.

Lemma process_file_agree (fs fs' : filesystem) (current_dir : path)
  (indent_level : nat) (ignore_patterns : list string) (root_dir : path)
  (file_entry : string) (st : lists) :
  getsize fs' (join current_dir file_entry)
  = getsize fs (join current_dir file_entry) ->
  read_text fs' (join current_dir file_entry)
  = read_text fs (join current_dir file_entry) ->
  process_file os fs' current_dir indent_level ignore_patterns root_dir
    file_entry st
  = process_file os fs current_dir indent_level ignore_patterns root_dir
      file_entry st.
Proof.
  intros Hs Hr. destruct st as [sl cl].
  unfold process_file, collect_file_content, include_file_contents,
    include_file_contents_try.
  rewrite Hs, Hr. reflexivity.
Qed.

(** Two file systems on which the calls of one level agree, and on
    which the calls below agree, give the same traversal. *)
Lemma collect_level_agree (fuel : nat) (fs fs' : filesystem)
  (current_dir : path) (st : lists) (indent : nat)
  (ignore_patterns : list string) (root_dir : path)
  (entries entries' : list string) :
  listdir fs current_dir = Ok entries ->
  listdir fs' current_dir = Ok entries' ->
  sort (filter (is_dir_entry fs' current_dir) entries')
  = sort (filter (is_dir_entry fs current_dir) entries) ->
  sort (filter (is_file_entry SCRIPT_FILE fs' current_dir) entries')
  = sort (filter (is_file_entry SCRIPT_FILE fs current_dir) entries) ->
  (forall d st',
      In d entries -> is_dir_entry fs current_dir d = true ->
      any_match os (relpath os (join current_dir d) root_dir) ignore_patterns
      = false ->
      collect fuel fs' (join current_dir d) st' (S indent) ignore_patterns
        root_dir
      = collect fuel fs (join current_dir d) st' (S indent) ignore_patterns
          root_dir) ->
  (forall f,
      In f entries -> is_file_entry SCRIPT_FILE fs current_dir f = true ->
      getsize fs' (join current_dir f) = getsize fs (join current_dir f)
      /\ read_text fs' (join current_dir f)
         = read_text fs (join current_dir f)) ->
  collect (S fuel) fs' current_dir st indent ignore_patterns root_dir
  = collect (S fuel) fs current_dir st indent ignore_patterns root_dir.
Proof.
  intros Hl Hl' Hdirs Hfiles Hsub Hfile.
  rewrite !collect_S, Hl, Hl', Hdirs, Hfiles.
  rewrite (for_each_ext _ _
             (process_dir os
                (fun p st0 i => collect fuel fs p st0 i ignore_patterns
                                  root_dir)
                current_dir indent ignore_patterns root_dir)).
  - destruct (for_each _ _ st) as [st1| |]; try reflexivity.
    cbn [bind]. apply for_each_ext. intros f st' Hf.
    apply in_sort, filter_In in Hf as [Hin Hf].
    destruct (Hfile f Hin Hf). apply process_file_agree; assumption.
  - intros d [sl cl] Hd. apply in_sort, filter_In in Hd as [Hin Hd].
    unfold process_dir. rewrite Nat.add_1_r.
    destruct (any_match os (relpath os (join current_dir d) root_dir)
                ignore_patterns) eqn:E; [reflexivity|].
    apply Hsub; assumption.
Qed.

(** What is below an ignored directory is not read. *)
Lemma collect_agree_outside (fs fs' : filesystem)
  (ignore_patterns : list string) (root_dir : path) (ignored : path) :
  agree_outside ignored fs fs' ->
  any_match os (relpath os ignored root_dir) ignore_patterns = true ->
  forall fuel current_dir st indent,
    ~ at_or_below ignored current_dir ->
    collect fuel fs' current_dir st indent ignore_patterns root_dir
    = collect fuel fs current_dir st indent ignore_patterns root_dir.
Proof.
  intros [Hlist Hrest] Hign fuel.
  induction fuel as [|fuel IH]; intros cur st indent Hcur; [reflexivity|].
  assert (Hentry : forall e, ~ strictly_below ignored (join cur e)).
  { intros e He. apply Hcur. eapply strictly_below_entry. exact He. }
  assert (Hd : forall l, filter (is_dir_entry fs' cur) l
                         = filter (is_dir_entry fs cur) l).
  { intros l. apply filter_ext. intros e. unfold is_dir_entry.
    apply (Hrest _ (Hentry e)). }
  assert (Hf : forall l, filter (is_file_entry SCRIPT_FILE fs' cur) l
                         = filter (is_file_entry SCRIPT_FILE fs cur) l).
  { intros l. apply filter_ext. intros e. unfold is_file_entry.
    destruct (Hrest _ (Hentry e)) as (-> & -> & _). reflexivity. }
  destruct (listdir fs cur) as [entries|msg] eqn:El.
  - apply collect_level_agree with (entries := entries) (entries' := entries);
      auto.
    + rewrite (Hlist _ Hcur). exact El.
    + rewrite Hd. reflexivity.
    + rewrite Hf. reflexivity.
    + intros d st' _ _ Hnot. apply IH. intros Hb.
      apply below_entry in Hb as [-> | Hb]; [congruence | exact (Hcur Hb)].
    + intros f _ _. destruct (Hrest _ (Hentry f)) as (_ & _ & Hs & Hr). auto.
  - rewrite !collect_S, (Hlist _ Hcur), El. reflexivity.
Qed.

(** C1, as the code has it: a directory listed in a directory that the
    traversal walks, and whose relative path matches an ignore pattern,
    has its line in the structure list, at its depth, followed by the
    omission marker at the next depth and by nothing else below it; and
    nothing under it is read: a file system that differs only under it
    gives the same structure and content lists. *)
Theorem ignored_directory_omitted (fuel : nat) (fs : filesystem)
  (root_dir : path) (ignore_patterns : list string) (current_dir : path)
  (indent : nat) (entries : list string) (d : string)
  (structure_lines content_lines : list string) :
  walked os fs ignore_patterns root_dir current_dir indent ->
  listdir fs current_dir = Ok entries ->
  In d entries ->
  isdir fs (join current_dir d) = true ->
  any_match os (relpath os (join current_dir d) root_dir) ignore_patterns
  = true ->
  collect fuel fs root_dir ([], []) 0 ignore_patterns root_dir
  = Returns (structure_lines, content_lines) ->
  listed_omitted indent d structure_lines
  /\ forall fs',
       agree_outside (join current_dir d) fs fs' ->
       collect fuel fs' root_dir ([], []) 0 ignore_patterns root_dir
       = Returns (structure_lines, content_lines).
Proof.
  intros Hw Hl Hin Hd Hign Hrun. split.
  - destruct (walked_call _ _ _ _ _ _ _ _ Hw Hrun)
      as (fuel' & sl1 & cl1 & sl2 & cl2 & post & Hcall & -> & Hpost).
    destruct (collect_level_omitted _ _ _ _ _ _ _ _ _ _ _ _ Hl Hin Hd Hign
                Hcall) as (pre & post2 & -> & Hpost2).
    exists (sl1 ++ pre), (post2 ++ post).
    split; [rewrite <- !app_assoc; reflexivity|].
    apply shallow_next_app; assumption.
  - intros fs' Hagree. rewrite <- Hrun.
    apply collect_agree_outside with (ignored := join current_dir d); auto.
    intros (rest & Hrest). apply walked_below in Hw as (rel & ->).
    apply (f_equal (@List.length string)) in Hrest. unfold join in Hrest.
    rewrite !length_app in Hrest. simpl in Hrest. lia.
Qed.

(** *** Entries that are not listed *)

Lemma path_eqb_eq (p q : path) : path_eqb p q = true <-> p = q.
Proof.
  revert q. induction p as [|a p IH]; destruct q as [|b q]; simpl;
    try (split; [discriminate | discriminate]); [tauto|].
  rewrite andb_true_iff, String.eqb_eq, IH. split.
  - intros [-> ->]. reflexivity.
  - intros H. injection H as -> ->. auto.
Qed.

Lemma join_inj (d d' : path) (e e' : string) :
  join d e = join d' e' -> d = d' /\ e = e'.
Proof. apply app_inj_tail. Qed.

Lemma filter_permutation {A : Type} (f : A -> bool) (l l' : list A) :
  Permutation l l' -> Permutation (filter f l) (filter f l').
Proof.
  induction 1 as [|x l l' _ IH|x y l|l l' l'' _ IH1 _ IH2]; simpl.
  - constructor.
  - destruct (f x); [constructor|]; exact IH.
  - destruct (f x), (f y); try reflexivity. constructor.
  - etransitivity; eassumption.
Qed.

Lemma filter_but_entry (f f' : string -> bool) (name : string)
  (entries entries' : list string) :
  filter (fun e => negb (String.eqb e name)) entries'
  = filter (fun e => negb (String.eqb e name)) entries ->
  f name = false -> f' name = false ->
  (forall e, e <> name -> f' e = f e) ->
  filter f' entries' = filter f entries.
Proof.
  intros Hlist Hf Hf' Hext.
  assert (Hne : forall (g : string -> bool) l,
             g name = false ->
             filter g (filter (fun e => negb (String.eqb e name)) l)
             = filter g l).
  { intros g l Hg. apply filter_absorb. intros x _ Hx.
    apply negb_true_iff, String.eqb_neq. intros ->. congruence. }
  rewrite <- (Hne f' entries' Hf'), <- (Hne f entries Hf), Hlist.
  apply filter_ext_in. intros e He. apply filter_In in He as [_ He].
  apply Hext. apply negb_true_iff, String.eqb_neq in He. exact He.
Qed.

(** An entry that is in neither list leaves no trace: the traversal is
    the same whether the directory lists it or not, and whatever is at
    its path. *)
Lemma collect_but_entry (fs fs' : filesystem) (dir : path) (name : string)
  (ignore_patterns : list string) (root_dir : path) :
  same_but_entry dir name fs fs' ->
  unlisted SCRIPT_FILE fs dir name ->
  unlisted SCRIPT_FILE fs' dir name ->
  forall fuel current_dir st indent,
    collect fuel fs' current_dir st indent ignore_patterns root_dir
    = collect fuel fs current_dir st indent ignore_patterns root_dir.
Proof.
  intros [Hlist Hrest] [Hd Hf] [Hd' Hf'] fuel.
  induction fuel as [|fuel IH]; intros cur st indent; [reflexivity|].
  assert (Hdirname : is_dir_entry fs dir name = false) by exact Hd.
  assert (Hdirname' : is_dir_entry fs' dir name = false) by exact Hd'.
  assert (Hfilename : is_file_entry SCRIPT_FILE fs dir name = false).
  { unfold is_file_entry. rewrite Hd. simpl.
    destruct Hf as [-> | ->]; [reflexivity|]. apply andb_false_r. }
  assert (Hfilename' : is_file_entry SCRIPT_FILE fs' dir name = false).
  { unfold is_file_entry. rewrite Hd'. simpl.
    destruct Hf' as [-> | ->]; [reflexivity|]. apply andb_false_r. }
  assert (Hother : forall e, join cur e <> join dir name ->
             is_dir_entry fs' cur e = is_dir_entry fs cur e
             /\ is_file_entry SCRIPT_FILE fs' cur e
                = is_file_entry SCRIPT_FILE fs cur e).
  { intros e He. unfold is_dir_entry, is_file_entry.
    destruct (Hrest _ He) as (-> & -> & _). auto. }
  specialize (Hlist cur).
  destruct (listdir fs cur) as [entries|msg] eqn:El;
    destruct (listdir fs' cur) as [entries'|msg'] eqn:El'; try contradiction.
  - apply collect_level_agree with (entries := entries) (entries' := entries');
      auto.
    + f_equal. destruct (path_eqb cur dir) eqn:Ep.
      * apply path_eqb_eq in Ep. subst cur.
        apply (filter_but_entry _ _ name); auto.
        intros e He. apply Hother. intros Hj. apply join_inj in Hj as [_ Hj].
        exact (He Hj).
      * subst entries'. apply filter_ext. intros e. apply Hother.
        intros Hj. apply join_inj in Hj as [-> _].
        assert (path_eqb dir dir = true) by (apply path_eqb_eq; reflexivity).
        congruence.
    + f_equal. destruct (path_eqb cur dir) eqn:Ep.
      * apply path_eqb_eq in Ep. subst cur.
        apply (filter_but_entry _ _ name); auto.
        intros e He. apply Hother. intros Hj. apply join_inj in Hj as [_ Hj].
        exact (He Hj).
      * subst entries'. apply filter_ext. intros e. apply Hother.
        intros Hj. apply join_inj in Hj as [-> _].
        assert (path_eqb dir dir = true) by (apply path_eqb_eq; reflexivity).
        congruence.
    + intros f _ Hfe.
      assert (Hne : join cur f <> join dir name).
      { intros Hj. apply join_inj in Hj as [-> ->]. congruence. }
      destruct (Hrest _ Hne) as (_ & _ & _ & Hs & Hr). auto.
  - rewrite !collect_S, El, El', Hlist. reflexivity.
Qed.

Lemma without_same_but_entry (fs : filesystem) (dir : path) (name : string) :
  same_but_entry dir name fs (without fs dir name).
Proof.
  split.
  - intros p. simpl. destruct (path_eqb p dir) eqn:Ep;
      destruct (listdir fs p) as [entries|msg]; try rewrite Ep; auto.
    apply filter_absorb. auto.
  - intros p _. simpl. auto.
Qed.

(** The entries listed by a traversal leave out an unlisted entry. *)
Lemma unlisted_not_visited (fuel : nat) (fs : filesystem) (root_dir : path)
  (ignore_patterns : list string) (dir : path) (name : string)
  (sl cl : list string) :
  unlisted SCRIPT_FILE fs dir name ->
  collect fuel fs root_dir ([], []) 0 ignore_patterns root_dir
  = Returns (sl, cl) ->
  exists entries : list visit,
    sl = map structure_line entries
    /\ cl = flat_map (content_block os fs ignore_patterns root_dir) entries
    /\ forall indent,
         ~ In (DirEntry indent dir name) entries
         /\ ~ In (FileEntry indent dir name) entries.
Proof.
  intros [Hd Hf] H.
  destruct (collect_traced fs fs ignore_patterns root_dir (same_shape_refl fs)
              fuel root_dir 0 _ _ _ _ H)
    as (vs & Hok & _ & Hsl & Hcl & _).
  exists vs. split; [exact Hsl|]. split; [exact Hcl|].
  rewrite Forall_forall in Hok. intros indent. split; intros Hin.
  - apply Hok in Hin. simpl in Hin. congruence.
  - apply Hok in Hin. simpl in Hin. destruct Hin as (_ & Hfile & Hres).
    destruct Hf; congruence.
Qed.

Lemma is_reserved_in (name : string) :
  is_reserved SCRIPT_FILE name = true <-> In name (reserved_names SCRIPT_FILE).
Proof.
  unfold is_reserved. rewrite existsb_exists. split.
  - intros (x & Hin & Heq). apply String.eqb_eq in Heq. subst. exact Hin.
  - intros Hin. exists name. split; [exact Hin | apply String.eqb_refl].
Qed.

(** C8: a file, at any depth, whose name is one of the reserved names
    (the script, the output file, the ignore-list, header and footer
    files) is in neither list: the traversal gives what it gives on the
    file system without that entry, and no entry it lists is that file. *)
Theorem reserved_files_excluded (fuel : nat) (fs : filesystem)
  (root_dir : path) (ignore_patterns : list string) (dir : path)
  (name : string) :
  In name (reserved_names SCRIPT_FILE) ->
  isdir fs (join dir name) = false ->
  collect fuel (without fs dir name) root_dir ([], []) 0 ignore_patterns
    root_dir
  = collect fuel fs root_dir ([], []) 0 ignore_patterns root_dir
  /\ forall structure_lines content_lines,
       collect fuel fs root_dir ([], []) 0 ignore_patterns root_dir
       = Returns (structure_lines, content_lines) ->
       exists entries : list visit,
         structure_lines = map structure_line entries
         /\ content_lines
            = flat_map (content_block os fs ignore_patterns root_dir) entries
         /\ forall indent,
              ~ In (DirEntry indent dir name) entries
              /\ ~ In (FileEntry indent dir name) entries.
Proof.
  intros Hres Hd. apply is_reserved_in in Hres.
  assert (Hun : unlisted SCRIPT_FILE fs dir name) by (split; auto).
  split.
  - apply collect_but_entry with (dir := dir) (name := name);
      [apply without_same_but_entry | exact Hun | exact Hun].
  - intros sl cl H. eapply unlisted_not_visited; eassumption.
Qed.

(** C10: an entry that is neither a directory nor a regular file is
    dropped without a trace: the traversal gives what it gives on the
    file system without that entry (the same lists, no error, no
    placeholder), and no entry it lists is that one. *)
Theorem special_entries_dropped (fuel : nat) (fs : filesystem)
  (root_dir : path) (ignore_patterns : list string) (dir : path)
  (name : string) :
  isdir fs (join dir name) = false ->
  isfile fs (join dir name) = false ->
  collect fuel (without fs dir name) root_dir ([], []) 0 ignore_patterns
    root_dir
  = collect fuel fs root_dir ([], []) 0 ignore_patterns root_dir
  /\ forall structure_lines content_lines,
       collect fuel fs root_dir ([], []) 0 ignore_patterns root_dir
       = Returns (structure_lines, content_lines) ->
       exists entries : list visit,
         structure_lines = map structure_line entries
         /\ content_lines
            = flat_map (content_block os fs ignore_patterns root_dir) entries
         /\ forall indent,
              ~ In (DirEntry indent dir name) entries
              /\ ~ In (FileEntry indent dir name) entries.
Proof.
  intros Hd Hf.
  assert (Hun : unlisted SCRIPT_FILE fs dir name) by (split; auto).
  split.
  - apply collect_but_entry with (dir := dir) (name := name);
      [apply without_same_but_entry | exact Hun | exact Hun].
  - intros sl cl H. eapply unlisted_not_visited; eassumption.
Qed.

(** *** Determinism *)

(** The order in which [os.listdir] returns the entries does not matter. *)
Lemma collect_relisted (fs fs' : filesystem) (ignore_patterns : list string)
  (root_dir : path) :
  relisted fs fs' ->
  forall fuel current_dir st indent,
    collect fuel fs' current_dir st indent ignore_patterns root_dir
    = collect fuel fs current_dir st indent ignore_patterns root_dir.
Proof.
  intros [Hlist Hrest] fuel.
  induction fuel as [|fuel IH]; intros cur st indent; [reflexivity|].
  assert (Hd : forall l, filter (is_dir_entry fs' cur) l
                         = filter (is_dir_entry fs cur) l).
  { intros l. apply filter_ext. intros e. unfold is_dir_entry.
    apply (Hrest (join cur e)). }
  assert (Hf : forall l, filter (is_file_entry SCRIPT_FILE fs' cur) l
                         = filter (is_file_entry SCRIPT_FILE fs cur) l).
  { intros l. apply filter_ext. intros e. unfold is_file_entry.
    destruct (Hrest (join cur e)) as (-> & -> & _). reflexivity. }
  specialize (Hlist cur).
  destruct (listdir fs cur) as [entries|msg] eqn:El;
    destruct (listdir fs' cur) as [entries'|msg'] eqn:El'; try contradiction.
  - apply collect_level_agree with (entries := entries) (entries' := entries');
      auto.
    + rewrite Hd. apply sort_permutation, filter_permutation.
      symmetry. exact Hlist.
    + rewrite Hf. apply sort_permutation, filter_permutation.
      symmetry. exact Hlist.
    + intros f _ _. destruct (Hrest (join cur f)) as (_ & _ & _ & Hs & Hr).
      auto.
  - rewrite !collect_S, El, El', Hlist. reflexivity.
Qed.

(** The order in which the set of patterns is iterated does not matter. *)
Lemma collect_patterns (fs : filesystem) (patterns patterns' : list string)
  (root_dir : path) :
  (forall p, any_match os p patterns' = any_match os p patterns) ->
  forall fuel current_dir st indent,
    collect fuel fs current_dir st indent patterns' root_dir
    = collect fuel fs current_dir st indent patterns root_dir.
Proof.
  intros Hm fuel.
  induction fuel as [|fuel IH]; intros cur st indent; [reflexivity|].
  rewrite !collect_S.
  destruct (listdir fs cur) as [entries|msg]; [|reflexivity].
  rewrite (for_each_ext _ _
             (process_dir os
                (fun p st0 i => collect fuel fs p st0 i patterns root_dir)
                cur indent patterns root_dir)).
  - destruct (for_each _ _ st) as [st1| |]; try reflexivity.
    cbn [bind]. apply for_each_ext. intros f [sl cl] _.
    unfold process_file. rewrite Hm. reflexivity.
  - intros d [sl cl] _. unfold process_dir. rewrite Hm.
    destruct (any_match os (relpath os (join cur d) root_dir) patterns);
      [reflexivity | apply IH].
Qed.

Lemma any_match_permutation (p : string) (patterns patterns' : list string) :
  Permutation patterns patterns' ->
  any_match os p patterns' = any_match os p patterns.
Proof.
  intros Hp.
  destruct (any_match os p patterns) eqn:E.
  - apply any_match_spec in E as (q & Hin & Hq). apply any_match_spec.
    exists q. split; [eapply Permutation_in; eassumption | exact Hq].
  - apply any_match_false. intros q Hin.
    apply (proj1 (any_match_false os p patterns) E).
    eapply Permutation_in; [symmetry; exact Hp | exact Hin].
Qed.

Lemma write_structure_agree (fuel : nat) (fs fs' : filesystem)
  (root_dir : path) :
  (forall name,
      In name [PROJECT_IGNORE_FILE; PROJECT_HEADER_FILE; PROJECT_FOOTER_FILE] ->
      exists_ fs' (join root_dir name) = exists_ fs (join root_dir name)
      /\ read_text fs' (join root_dir name)
         = read_text fs (join root_dir name)) ->
  (forall patterns,
      collect fuel fs' root_dir ([], []) 0 patterns root_dir
      = collect fuel fs root_dir ([], []) 0 patterns root_dir) ->
  write_structure os SCRIPT_FILE fuel fs' root_dir
  = write_structure os SCRIPT_FILE fuel fs root_dir.
Proof.
  intros Hfiles Hcollect. unfold write_structure.
  destruct (Hfiles PROJECT_IGNORE_FILE) as [Hie Hir]; [simpl; auto|].
  destruct (Hfiles PROJECT_HEADER_FILE) as [Hhe Hhr]; [simpl; auto|].
  destruct (Hfiles PROJECT_FOOTER_FILE) as [Hfe Hfr]; [simpl; auto|].
  unfold load_ignore_patterns, read_optional_file.
  rewrite Hie, Hir, Hhe, Hhr, Hfe, Hfr.
  destruct (exists_ fs (join root_dir PROJECT_IGNORE_FILE));
    [destruct (read_text fs (join root_dir PROJECT_IGNORE_FILE))|];
    cbn [lift bind]; try reflexivity; rewrite Hcollect; reflexivity.
Qed.

(** C9: the text written is the same for two runs on the same tree:
    whichever order [os.listdir] returns the entries of the directories
    in, whichever order the set of patterns is iterated in, and whether
    or not the output file of an earlier run is there, whatever its
    text. *)
Theorem output_is_deterministic (fuel : nat) (fs fs' fs'' : filesystem)
  (root_dir cwd : path) :
  relisted fs fs' ->
  same_but_entry cwd OUTPUT_FILE fs fs'' ->
  isdir fs (join cwd OUTPUT_FILE) = false ->
  isdir fs'' (join cwd OUTPUT_FILE) = false ->
  write_structure os SCRIPT_FILE fuel fs' root_dir
  = write_structure os SCRIPT_FILE fuel fs root_dir
  /\ write_structure os SCRIPT_FILE fuel fs'' root_dir
     = write_structure os SCRIPT_FILE fuel fs root_dir
  /\ forall patterns patterns',
       Permutation patterns patterns' ->
       collect fuel fs root_dir ([], []) 0 patterns' root_dir
       = collect fuel fs root_dir ([], []) 0 patterns root_dir.
Proof.
  intros Hrel Hbut Hd Hd''. split; [|split].
  - apply write_structure_agree.
    + intros name _. destruct Hrel as [_ Hrest].
      destruct (Hrest (join root_dir name)) as (_ & _ & He & _ & Hr). auto.
    + intros patterns. apply collect_relisted. exact Hrel.
  - assert (Hres : is_reserved SCRIPT_FILE OUTPUT_FILE = true).
    { apply is_reserved_in. simpl. auto. }
    apply write_structure_agree.
    + intros name Hname. destruct Hbut as [_ Hrest].
      assert (Hne : join root_dir name <> join cwd OUTPUT_FILE).
      { intros Hj. apply join_inj in Hj as [_ Hj]. subst name.
        simpl in Hname. destruct Hname as [H | [H | [H | []]]];
          discriminate H. }
      destruct (Hrest _ Hne) as (_ & _ & He & _ & Hr). auto.
    + intros patterns.
      apply collect_but_entry with (dir := cwd) (name := OUTPUT_FILE);
        [exact Hbut | split; auto | split; auto].
  - intros patterns patterns' Hp. apply collect_patterns.
    intros p. apply any_match_permutation. exact Hp.
Qed.

End Traversal.

(** * The properties on concrete trees *)

(** The round-trip scenario: the subdirectory and what is below it come
    first, then the files; [b.txt] is empty and [c.txt] is ignored. *)
Example scenario_run :
  collect_structure_and_contents posix SCRIPT 3 scenario_fs proj ([], []) 0
    ["c.txt"] proj
  = Returns
      (["-> sub"; (TAB ++ "-> d.txt")%string; "-> a.txt"; "-> b.txt";
        "-> c.txt"],
       [("sub/d.txt:" ++ NL)%string; FENCE; "world"; FENCE; BLOCK_END;
        ("a.txt:" ++ NL)%string; FENCE; "hi"; FENCE; BLOCK_END;
        ("b.txt:" ++ NL)%string; EMPTY_FILE_PLACEHOLDER; BLOCK_END;
        ("c.txt:" ++ NL)%string; OMITTED_TEXT; BLOCK_END]).
Proof. reflexivity. Qed.

(** With [sub] ignored, nothing under it is listed or dumped. *)
Example sub_ignored_run :
  collect_structure_and_contents posix SCRIPT 3 sub_ignored_fs proj ([], []) 0
    ["sub"] proj
  = Returns
      (["-> sub"; (TAB ++ "-> [omitted for brevity]")%string; "-> a.txt";
        "-> b.txt"; "-> c.txt"],
       [("a.txt:" ++ NL)%string; FENCE; "hi"; FENCE; BLOCK_END;
        ("b.txt:" ++ NL)%string; EMPTY_FILE_PLACEHOLDER; BLOCK_END;
        ("c.txt:" ++ NL)%string; FENCE; "secret"; FENCE; BLOCK_END]).
Proof. reflexivity. Qed.

(** The patterns are read from the ignore-list file of the root. *)
Example scenario_patterns :
  load_ignore_patterns scenario_fs (join proj PROJECT_IGNORE_FILE)
  = Ok ["c.txt"].
Proof. reflexivity. Qed.

(** Upper case sorts before lower case. *)
Example sort_is_case_sensitive : sort ["b"; "a"; "B"] = ["B"; "a"; "b"].
Proof. reflexivity. Qed.

(** A pattern is neither a wildcard nor a prefix. *)
Example no_wildcard_no_substring :
  any_match posix "src/main.py" ["*.py"; "src"; "main.py"; "src/*"] = false
  /\ any_match (nt lower_ascii) "src\main.py" ["SRC/Main.py"] = true.
Proof. split; reflexivity. Qed.

Lemma any_match_is_normcase_equality_witness :
  lower_ascii "readme.md" = lower_ascii "README.md"
  /\ any_match (nt lower_ascii) "README.md" ["readme.md"] = true.
Proof.
  split; [reflexivity|].
  apply (proj2 (proj2 (proj2 any_match_is_normcase_equality))).
  - exact lower_ascii_replace_slash.
  - reflexivity.
Defined.

Lemma empty_file_placeholder_witness :
  getsize scenario_fs (join proj "b.txt") = Ok 0%Z
  /\ include_file_contents scenario_fs (join proj "b.txt") [] true
     = [EMPTY_FILE_PLACEHOLDER]
  /\ process_file posix scenario_fs proj 0 ["b.txt"] proj "b.txt" ([], [])
     = Returns
         ([entry_line 0 "b.txt"],
          [label posix "b.txt"; EMPTY_FILE_PLACEHOLDER; BLOCK_END]).
Proof.
  split; [reflexivity|].
  apply (empty_file_placeholder posix scenario_fs proj 0 ["b.txt"] proj
           "b.txt" [] [] true).
  reflexivity.
Defined.

Lemma ignored_file_omitted_witness :
  getsize scenario_fs (join proj "c.txt") = Ok 6%Z
  /\ process_file posix scenario_fs proj 0 ["c.txt"] proj "c.txt" ([], [])
     = Returns
         ([entry_line 0 "c.txt"],
          [label posix "c.txt"; OMITTED_TEXT; BLOCK_END]).
Proof.
  split; [reflexivity|].
  refine (proj1 (ignored_file_omitted posix scenario_fs proj 0 ["c.txt"] proj
                   "c.txt" [] [] 6%Z _ _ _)).
  - reflexivity.
  - discriminate.
  - reflexivity.
Defined.


Lemma directories_before_files_sorted_witness :
  exists dirs files subs,
    Permutation dirs
      (filter (is_dir_entry scenario_fs proj)
         ["c.txt"; "sub"; ".projectignore"; "b.txt"; "a.txt"])
    /\ StronglySorted lex_le dirs
    /\ Permutation files
         (filter (is_file_entry SCRIPT scenario_fs proj)
            ["c.txt"; "sub"; ".projectignore"; "b.txt"; "a.txt"])
    /\ StronglySorted lex_le files
    /\ List.length subs = List.length dirs
    /\ Forall (Forall (deeper 0)) subs
    /\ fst scenario_lists
       = [] ++ dir_listing 0 dirs subs ++ map (entry_line 0) files
    /\ forall x y, In x dirs -> In y files ->
         precedes (entry_line 0 x) (entry_line 0 y)
           (dir_listing 0 dirs subs ++ map (entry_line 0) files).
Proof.
  apply (directories_before_files_sorted posix SCRIPT 3 scenario_fs proj 0
           ["c.txt"] proj ["c.txt"; "sub"; ".projectignore"; "b.txt"; "a.txt"]
           [] [] (fst scenario_lists) (snd scenario_lists)).
  - reflexivity.
  - reflexivity.
Defined.

Lemma ignored_directory_omitted_witness :
  any_match posix (relpath posix (join (join proj "sub") "inner") proj)
    ["sub/inner"] = true
  /\ listed_omitted 1 "inner" (fst inner_ignored_lists).
Proof.
  split; [reflexivity|].
  refine (proj1 (ignored_directory_omitted posix SCRIPT 4 nested_fs proj
                   ["sub/inner"] (join proj "sub") 1 ["inner"] "inner"
                   (fst inner_ignored_lists) (snd inner_ignored_lists)
                   _ _ _ _ _ _)).
  - apply (walked_sub posix nested_fs ["sub/inner"] proj proj 0 ["sub"] "sub").
    + apply walked_root.
    + reflexivity.
    + left. reflexivity.
    + reflexivity.
    + reflexivity.
  - reflexivity.
  - left. reflexivity.
  - reflexivity.
  - reflexivity.
  - reflexivity.
Defined.


Lemma reserved_files_excluded_witness :
  In ".projectignore" (reserved_names SCRIPT)
  /\ isfile scenario_fs (join proj ".projectignore") = true
  /\ collect_structure_and_contents posix SCRIPT 3
       (without scenario_fs proj ".projectignore") proj ([], []) 0 ["c.txt"]
       proj
     = collect_structure_and_contents posix SCRIPT 3 scenario_fs proj
         ([], []) 0 ["c.txt"] proj.
Proof.
  split; [simpl; auto|]. split; [reflexivity|].
  refine (proj1 (reserved_files_excluded posix SCRIPT 3 scenario_fs proj
                   ["c.txt"] proj ".projectignore" _ _)).
  - simpl. auto.
  - reflexivity.
Defined.

Lemma special_entries_dropped_witness :
  In "dangling" ["dangling"; "a.txt"; "run"]
  /\ collect_structure_and_contents posix SCRIPT 3
       (without specials_fs proj "dangling") proj ([], []) 0 [] proj
     = collect_structure_and_contents posix SCRIPT 3 specials_fs proj
         ([], []) 0 [] proj.
Proof.
  split; [simpl; auto|].
  refine (proj1 (special_entries_dropped posix SCRIPT 3 specials_fs proj
                   [] proj "dangling" _ _)); reflexivity.
Defined.

Lemma reversed_relisted (fs : filesystem) : relisted fs (reversed fs).
Proof.
  split; intros p; simpl; [|auto].
  destruct (listdir fs p); [apply Permutation_rev | reflexivity].
Qed.

Lemma output_is_deterministic_witness :
  write_structure posix SCRIPT 3 (reversed after_run_fs) proj
  = write_structure posix SCRIPT 3 after_run_fs proj
  /\ write_structure posix SCRIPT 3 (without after_run_fs proj OUTPUT_FILE)
       proj
     = write_structure posix SCRIPT 3 after_run_fs proj.
Proof.
  destruct (output_is_deterministic posix SCRIPT 3 after_run_fs
              (reversed after_run_fs) (without after_run_fs proj OUTPUT_FILE)
              proj proj) as (H1 & H2 & _).
  - apply reversed_relisted.
  - apply without_same_but_entry.
  - reflexivity.
  - reflexivity.
  - split; assumption.
Defined.

(** C1, as the spec states it, fails for a directory inside an ignored
    directory: its relative path matches a pattern, and it has no line
    in the structure list. *)
Lemma nested_ignored_directory_not_listed :
  isdir nested_fs (join (join proj "sub") "inner") = true
  /\ any_match posix (relpath posix (join (join proj "sub") "inner") proj)
       ["sub"; "sub/inner"] = true
  /\ collect_structure_and_contents posix SCRIPT 4 nested_fs proj ([], []) 0
       ["sub"; "sub/inner"] proj
     = Returns nested_lists
  /\ ~ In (entry_line 1 "inner") (fst nested_lists)
  /\ ~ listed_omitted 1 "inner" (fst nested_lists).
Proof.
  split; [reflexivity|]. split; [reflexivity|]. split; [reflexivity|].
  assert (Hnot : ~ In (entry_line 1 "inner") (fst nested_lists)).
  { simpl. intros [H | [H | []]]; discriminate H. }
  split; [exact Hnot|].
  intros (pre & post & Heq & _). apply Hnot. rewrite Heq.
  apply in_or_app. right. left. reflexivity.
Qed.

(** * Further properties of the code *)

(** ** [load_ignore_patterns] *)

Lemma set_add_In (x y : string) (s : list string) :
  In y (set_add x s) <-> y = x \/ In y s.
Proof.
  induction s as [|z s IH]; simpl.
  - split; [intros [<- | []]; auto | intros [-> | []]; auto].
  - destruct (String.eqb x z) eqn:E.
    + apply String.eqb_eq in E. subst z. simpl. split; [auto|].
      intros [-> | H]; auto.
    + simpl. rewrite IH. tauto.
Qed.

Lemma set_add_NoDup (x : string) (s : list string) :
  NoDup s -> NoDup (set_add x s).
Proof.
  induction s as [|z s IH]; intros Hs; simpl.
  - constructor; [intros [] | constructor].
  - destruct (String.eqb x z) eqn:E; [exact Hs|].
    inversion Hs as [|? ? Hz Hs']; subst. constructor; [|auto].
    rewrite set_add_In. intros [-> | H]; [|contradiction].
    rewrite String.eqb_refl in E. discriminate.
Qed.

Lemma add_pattern_In (patterns : list string) (line p : string) :
  In p (add_pattern patterns line)
  <-> In p patterns
      \/ (p <> EmptyString /\ startswith "#"%char p = false /\ strip line = p).
Proof.
  unfold add_pattern. destruct (strip line) as [|a rest] eqn:E.
  - split; [auto|]. intros [H | (Hne & _ & <-)]; [exact H | congruence].
  - destruct (startswith "#"%char (String a rest)) eqn:Ec; cbn [negb].
    + split; [auto|]. intros [H | (_ & Hc & <-)]; [exact H | congruence].
    + rewrite set_add_In. split.
      * intros [-> | H]; [right | left; exact H].
        repeat split; [discriminate | exact Ec].
      * intros [H | (_ & _ & <-)]; auto.
Qed.

Lemma add_pattern_NoDup (patterns : list string) (line : string) :
  NoDup patterns -> NoDup (add_pattern patterns line).
Proof.
  intros H. unfold add_pattern. destruct (strip line); [exact H|].
  destruct (negb _); [apply set_add_NoDup|]; exact H.
Qed.

Lemma fold_add_pattern (lines : list string) :
  forall patterns,
    NoDup patterns ->
    NoDup (fold_left add_pattern lines patterns)
    /\ forall p,
         In p (fold_left add_pattern lines patterns)
         <-> In p patterns
             \/ (p <> EmptyString /\ startswith "#"%char p = false
                 /\ exists line, In line lines /\ strip line = p).
Proof.
  induction lines as [|l lines IH]; intros patterns Hnd; simpl.
  - split; [exact Hnd|]. intros p. split; [auto|].
    intros [H | (_ & _ & x & [] & _)]. exact H.
  - destruct (IH _ (add_pattern_NoDup patterns l Hnd)) as [Hnd' Hin].
    split; [exact Hnd'|]. intros p. rewrite Hin, add_pattern_In. split.
    + intros [[H | (H1 & H2 & H3)] | (H1 & H2 & x & Hx & H3)]; eauto 10.
    + intros [H | (H1 & H2 & x & [-> | Hx] & H3)]; eauto 10.
Qed.

(** X1: the patterns loaded from a readable ignore-list file are its
    lines, stripped of surrounding white space, but for the empty ones
    and the ones that then start with [#]; each is there once. *)
Theorem load_ignore_patterns_lines (fs : filesystem) (file_path : path)
  (text : string) :
  exists_ fs file_path = true ->
  read_text fs file_path = Ok text ->
  exists patterns,
    load_ignore_patterns fs file_path = Ok patterns
    /\ NoDup patterns
    /\ forall p,
         In p patterns
         <-> p <> EmptyString
             /\ startswith "#"%char p = false
             /\ exists line, In line (text_lines text) /\ strip line = p.
Proof.
  intros He Hr. unfold load_ignore_patterns. rewrite He, Hr.
  destruct (fold_add_pattern (text_lines text) [] (NoDup_nil _)) as [Hnd Hin].
  eexists. split; [reflexivity|]. split; [exact Hnd|].
  intros p. rewrite Hin. simpl. tauto.
Qed.

Example commented_ignore_patterns :
  load_ignore_patterns commented_ignore_fs (join proj PROJECT_IGNORE_FILE)
  = Ok ["dist"; "node_modules"; "src/gen # not a comment"].
Proof. reflexivity. Qed.

Lemma load_ignore_patterns_lines_witness :
  exists patterns,
    load_ignore_patterns commented_ignore_fs (join proj PROJECT_IGNORE_FILE)
    = Ok patterns
    /\ NoDup patterns
    /\ forall p,
         In p patterns
         <-> p <> EmptyString
             /\ startswith "#"%char p = false
             /\ exists line,
                  In line (text_lines ignore_text) /\ strip line = p.
Proof.
  apply (load_ignore_patterns_lines commented_ignore_fs
           (join proj PROJECT_IGNORE_FILE) ignore_text); reflexivity.
Defined.

(** ** The size limit *)

Lemma fence_not_notice (lines : list string) :
  FENCE :: lines ++ [FENCE] <> [TRUNCATED_TEXT].
Proof. intros H. injection H as H _. discriminate H. Qed.

Lemma error_not_notice (msg : string) : error_line msg <> TRUNCATED_TEXT.
Proof. intros H. discriminate H. Qed.

(** X2: a file that is not ignored and not empty gets the truncation
    notice as the body of its block exactly when its size is above
    [MAX_FILE_SIZE]: a file of [MAX_FILE_SIZE] bytes is still dumped.
    Above the limit the file is not opened: a file system that differs
    in what reading it gives has the same body. *)
Theorem truncated_above_limit_only (fs : filesystem) (file_path : path)
  (content_lines : list string) (size : Z) :
  getsize fs file_path = Ok size ->
  size <> 0%Z ->
  (include_file_contents fs file_path content_lines false
   = content_lines ++ [TRUNCATED_TEXT]
   <-> (MAX_FILE_SIZE < size)%Z)
  /\ ((MAX_FILE_SIZE < size)%Z ->
      forall fs',
        getsize fs' file_path = Ok size ->
        include_file_contents fs' file_path content_lines false
        = include_file_contents fs file_path content_lines false).
Proof.
  intros Hs Hnz. apply Z.eqb_neq in Hnz.
  assert (Hbig : forall fs0,
             getsize fs0 file_path = Ok size -> (MAX_FILE_SIZE < size)%Z ->
             include_file_contents fs0 file_path content_lines false
             = content_lines ++ [TRUNCATED_TEXT]).
  { intros fs0 H0 Hlt. unfold include_file_contents, include_file_contents_try.
    rewrite H0, Hnz.
    replace (size >? MAX_FILE_SIZE)%Z with true
      by (symmetry; rewrite Z.gtb_ltb; apply Z.ltb_lt; exact Hlt).
    reflexivity. }
  split.
  - split; [|apply Hbig; exact Hs].
    unfold include_file_contents, include_file_contents_try.
    rewrite Hs, Hnz. rewrite Z.gtb_ltb.
    destruct (MAX_FILE_SIZE <? size)%Z eqn:E; [intros _; apply Z.ltb_lt, E|].
    destruct (read_text fs file_path) as [text|msg]; cbn [negb]; intros H.
    + rewrite <- !app_assoc in H. apply app_inv_head in H.
      exfalso. exact (fence_not_notice _ H).
    + apply app_inv_head in H.
      apply (f_equal (fun l => hd EmptyString l)) in H. cbn [hd] in H.
      exfalso. exact (error_not_notice _ H).
  - intros Hlt fs' Hs'. rewrite (Hbig fs' Hs' Hlt), (Hbig fs Hs Hlt).
    reflexivity.
Qed.

Lemma truncated_above_limit_only_witness :
  (include_file_contents (sized_fs 1000001) (join proj "a.txt") [] false
   = [] ++ [TRUNCATED_TEXT]
   <-> (MAX_FILE_SIZE < 1000001)%Z)
  /\ (include_file_contents (sized_fs 1000000) (join proj "a.txt") [] false
      = [] ++ [TRUNCATED_TEXT]
      <-> (MAX_FILE_SIZE < 1000000)%Z).
Proof.
  split.
  - refine (proj1 (truncated_above_limit_only (sized_fs 1000001)
                     (join proj "a.txt") [] 1000001%Z _ _));
      [reflexivity | discriminate].
  - refine (proj1 (truncated_above_limit_only (sized_fs 1000000)
                     (join proj "a.txt") [] 1000000%Z _ _));
      [reflexivity | discriminate].
Defined.

Example limit_is_inclusive :
  include_file_contents (sized_fs 1000000) (join proj "a.txt") [] false
  = [FENCE; "hi"; FENCE]
  /\ include_file_contents (sized_fs 1000001) (join proj "a.txt") [] false
     = [TRUNCATED_TEXT].
Proof. split; reflexivity. Qed.

(** ** The traversal and its two lists *)

Section Lists.

Variable os : os_name.
Variable SCRIPT_FILE : string.

Local Abbreviation collect := (collect_structure_and_contents os SCRIPT_FILE).

Lemma after_after (sl cl ds dc : list string) (r : outcome lists) :
  after sl cl (after ds dc r) = after (sl ++ ds) (cl ++ dc) r.
Proof.
  destruct r as [[es ec]| |]; simpl; [|reflexivity|reflexivity].
  rewrite !app_assoc. reflexivity.
Qed.

Lemma after_bind (sl cl : list string) (r : outcome lists)
  (k : lists -> outcome lists) :
  (forall ds dc, k (sl ++ ds, cl ++ dc) = after sl cl (k (ds, dc))) ->
  (st <- after sl cl r ;; k st) = after sl cl (st <- r ;; k st).
Proof.
  intros Hk. destruct r as [[ds dc]| |]; simpl; [apply Hk | reflexivity..].
Qed.

Lemma for_each_after {A : Type} (xs : list A)
  (body : A -> lists -> outcome lists) :
  (forall x sl cl, In x xs -> body x (sl, cl) = after sl cl (body x ([], []))) ->
  forall sl cl,
    for_each xs body (sl, cl) = after sl cl (for_each xs body ([], [])).
Proof.
  induction xs as [|x xs IH]; intros Hb sl cl; cbn [for_each].
  - simpl. rewrite !app_nil_r. reflexivity.
  - assert (IH' : forall sl cl,
               for_each xs body (sl, cl)
               = after sl cl (for_each xs body ([], []))).
    { apply IH. intros y sl0 cl0 Hy. apply Hb. right. exact Hy. }
    rewrite (Hb x sl cl (or_introl eq_refl)).
    destruct (body x ([], [])) as [[ds dc]| |]; simpl; try reflexivity.
    rewrite IH', (IH' ds dc), after_after. reflexivity.
Qed.

Lemma process_file_after (fs : filesystem) (current_dir : path)
  (indent : nat) (ignore_patterns : list string) (root_dir : path)
  (f : string) (sl cl : list string) :
  process_file os fs current_dir indent ignore_patterns root_dir f (sl, cl)
  = after sl cl
      (process_file os fs current_dir indent ignore_patterns root_dir f
         ([], [])).
Proof. rewrite !process_file_visit. reflexivity. Qed.

(** A call on any two lists is the call on two empty lists, with its
    result put after them. *)
Lemma collect_after (fuel : nat) (fs : filesystem) (current_dir : path)
  (structure_lines content_lines : list string) (indent : nat)
  (ignore_patterns : list string) (root_dir : path) :
  collect fuel fs current_dir (structure_lines, content_lines) indent
    ignore_patterns root_dir
  = after structure_lines content_lines
      (collect fuel fs current_dir ([], []) indent ignore_patterns root_dir).
Proof.
  revert current_dir structure_lines content_lines indent.
  induction fuel as [|fuel IH]; intros cur sl cl indent; [reflexivity|].
  rewrite !collect_S.
  destruct (listdir fs cur) as [entries|msg]; [|reflexivity].
  assert (Hfiles : forall sl0 cl0,
             for_each
               (sort (filter (is_file_entry SCRIPT_FILE fs cur) entries))
               (process_file os fs cur indent ignore_patterns root_dir)
               (sl0, cl0)
             = after sl0 cl0
                 (for_each
                    (sort (filter (is_file_entry SCRIPT_FILE fs cur) entries))
                    (process_file os fs cur indent ignore_patterns root_dir)
                    ([], []))).
  { apply for_each_after. intros f sl0 cl0 _. apply process_file_after. }
  rewrite for_each_after.
  - apply after_bind. intros ds dc.
    rewrite Hfiles, (Hfiles ds dc), after_after. reflexivity.
  - intros d sl0 cl0 _. unfold process_dir.
    destruct (any_match os (relpath os (join cur d) root_dir) ignore_patterns).
    + simpl. rewrite <- !app_assoc, app_nil_r. reflexivity.
    + rewrite IH, (IH _ ([] ++ _)).
      destruct (collect fuel fs (join cur d) ([], []) (indent + 1)
                  ignore_patterns root_dir) as [[ds dc]| |];
        simpl; try reflexivity.
      rewrite <- !app_assoc. reflexivity.
Qed.

(** X3: the traversal only appends to the two lists it is given, and
    what it appends, or the exception it raises, does not depend on what
    they hold. *)
Theorem collect_appends (fuel : nat) (fs : filesystem) (current_dir : path)
  (indent : nat) (ignore_patterns : list string) (root_dir : path)
  (sl cl : list string) :
  (forall sl' cl',
      collect fuel fs current_dir (sl, cl) indent ignore_patterns root_dir
      = Returns (sl', cl') ->
      exists ds dc,
        sl' = sl ++ ds /\ cl' = cl ++ dc
        /\ forall sl0 cl0,
             collect fuel fs current_dir (sl0, cl0) indent ignore_patterns
               root_dir
             = Returns (sl0 ++ ds, cl0 ++ dc))
  /\ (forall msg,
        collect fuel fs current_dir (sl, cl) indent ignore_patterns root_dir
        = Raises msg ->
        forall sl0 cl0,
          collect fuel fs current_dir (sl0, cl0) indent ignore_patterns
            root_dir
          = Raises msg).
Proof.
  split.
  - intros sl' cl' H. rewrite collect_after in H.
    destruct (collect fuel fs current_dir ([], []) indent ignore_patterns
                root_dir) as [[ds dc]| |] eqn:E; try discriminate.
    injection H as <- <-. exists ds, dc. repeat split.
    intros sl0 cl0. rewrite collect_after, E. reflexivity.
  - intros msg H sl0 cl0. rewrite collect_after in H |- *.
    destruct (collect fuel fs current_dir ([], []) indent ignore_patterns
                root_dir) as [[ds dc]| |]; try discriminate.
    exact H.
Qed.

(** *** Every listed entry is in the tree *)

Lemma lists_only_seq (fs : filesystem) (ignore_patterns : list string)
  (root_dir : path) (P : visit -> Prop) (c k : lists -> outcome lists) :
  lists_only os fs ignore_patterns root_dir P c ->
  lists_only os fs ignore_patterns root_dir P k ->
  lists_only os fs ignore_patterns root_dir P
    (fun st => st1 <- c st ;; k st1).
Proof.
  intros Hc Hk sl cl sl' cl' H.
  destruct (c (sl, cl)) as [[sl1 cl1]| |] eqn:E; simpl in H; try discriminate.
  destruct (Hc _ _ _ _ E) as (vs1 & Hp1 & -> & ->).
  destruct (Hk _ _ _ _ H) as (vs2 & Hp2 & -> & ->).
  exists (vs1 ++ vs2).
  rewrite Forall_app, map_app, flat_map_app, !app_assoc. auto.
Qed.

Lemma lists_only_for_each {A : Type} (fs : filesystem)
  (ignore_patterns : list string) (root_dir : path) (P : visit -> Prop)
  (xs : list A) (body : A -> lists -> outcome lists) :
  (forall x, In x xs ->
             lists_only os fs ignore_patterns root_dir P (body x)) ->
  lists_only os fs ignore_patterns root_dir P (for_each xs body).
Proof.
  induction xs as [|x xs IH]; intros H.
  - intros sl cl sl' cl' Hc. simpl in Hc. injection Hc as <- <-.
    exists []. simpl. rewrite !app_nil_r. auto.
  - cbn [for_each]. apply lists_only_seq.
    + apply H. left. reflexivity.
    + apply IH. intros y Hy. apply H. right. exact Hy.
Qed.

Lemma walked_at_depth (fs : filesystem) (ignore_patterns : list string)
  (root_dir dir : path) (indent : nat) :
  walked os fs ignore_patterns root_dir dir indent ->
  at_depth root_dir dir indent.
Proof.
  induction 1 as [|cur indent entries d _ (rel & -> & Hlen) _ _ _ _].
  - exists []. rewrite app_nil_r. auto.
  - exists (rel ++ [d]). unfold join. rewrite app_assoc, length_app. simpl.
    split; [reflexivity | lia].
Qed.

Lemma collect_in_tree (fs : filesystem) (ignore_patterns : list string)
  (root_dir : path) (fuel : nat) :
  forall current_dir indent,
    walked os fs ignore_patterns root_dir current_dir indent ->
    lists_only os fs ignore_patterns root_dir
      (entry_in_tree os SCRIPT_FILE fs ignore_patterns root_dir)
      (fun st =>
         collect fuel fs current_dir st indent ignore_patterns root_dir).
Proof.
  induction fuel as [|fuel IH]; intros cur indent Hw.
  - intros sl cl sl' cl' H. discriminate H.
  - intros sl cl sl' cl' H. rewrite collect_S in H.
    destruct (listdir fs cur) as [entries|msg] eqn:El; [|discriminate].
    revert sl cl sl' cl' H.
    apply (lists_only_seq fs ignore_patterns root_dir _
             (for_each (sort (filter (is_dir_entry fs cur) entries))
                (process_dir os
                   (fun p st0 i =>
                      collect fuel fs p st0 i ignore_patterns root_dir)
                   cur indent ignore_patterns root_dir))
             (for_each
                (sort (filter (is_file_entry SCRIPT_FILE fs cur) entries))
                (process_file os fs cur indent ignore_patterns root_dir))).
    + apply lists_only_for_each. intros d Hd.
      apply in_sort, filter_In in Hd as [Hin Hd].
      intros sl cl sl' cl' H. unfold process_dir in H.
      rewrite Nat.add_1_r in H.
      destruct (any_match os (relpath os (join cur d) root_dir)
                  ignore_patterns) eqn:Em.
      * injection H as <- <-.
        exists [DirEntry indent cur d; Omission (S indent)].
        split.
        { constructor; [|constructor; [|constructor]].
          - repeat split; auto.
            + eapply walked_at_depth. exact Hw.
            + exists entries. auto.
          - exists cur, d. simpl. repeat split; auto.
            exists entries. auto. }
        cbn [map flat_map content_block structure_line].
        rewrite <- !app_assoc, !app_nil_r. auto.
      * assert (Hsub : walked os fs ignore_patterns root_dir (join cur d)
                         (S indent))
          by (eapply walked_sub; eassumption).
        destruct (IH _ _ Hsub _ _ _ _ H) as (vs & Hp & -> & ->).
        exists (DirEntry indent cur d :: vs). split.
        { constructor; [|exact Hp]. repeat split; auto.
          - eapply walked_at_depth. exact Hw.
          - exists entries. auto. }
        cbn [map flat_map content_block structure_line app].
        rewrite <- !app_assoc. auto.
    + apply lists_only_for_each. intros f Hf.
      apply in_sort, filter_In in Hf as [Hin Hf].
      intros sl cl sl' cl' H. rewrite process_file_visit in H.
      injection H as <- <-.
      exists [FileEntry indent cur f]. split.
      { constructor; [|constructor]. repeat split; auto.
        - eapply walked_at_depth. exact Hw.
        - exists entries. auto. }
      cbn [map flat_map]. rewrite !app_nil_r. auto.
Qed.

(** X4: nothing is listed that is not there.  The two lists that a
    traversal returns are the structure lines and the content blocks of
    entries of which every directory and every file is an entry that a
    walked directory lists, indented by the depth of that directory
    below the root, a directory for [os.path.isdir] or a regular file
    with no reserved name; and every omission marker stands under a
    listed directory that matches an ignore pattern. *)
Theorem listed_entries_in_tree (fuel : nat) (fs : filesystem)
  (root_dir : path) (ignore_patterns : list string)
  (structure_lines content_lines : list string) :
  collect fuel fs root_dir ([], []) 0 ignore_patterns root_dir
  = Returns (structure_lines, content_lines) ->
  exists entries : list visit,
    Forall (entry_in_tree os SCRIPT_FILE fs ignore_patterns root_dir) entries
    /\ structure_lines = map structure_line entries
    /\ content_lines
       = flat_map (content_block os fs ignore_patterns root_dir) entries.
Proof.
  intros H.
  destruct (collect_in_tree fs ignore_patterns root_dir fuel root_dir 0
              (walked_root os fs ignore_patterns root_dir) _ _ _ _ H)
    as (vs & Hp & Hsl & Hcl).
  exists vs. auto.
Qed.

(** *** Every entry of the tree is listed *)

Lemma after_returns (sl cl sl' cl' : list string) (r : outcome lists) :
  after sl cl r = Returns (sl', cl') ->
  exists ds dc, r = Returns (ds, dc) /\ sl' = sl ++ ds /\ cl' = cl ++ dc.
Proof.
  destruct r as [[ds dc]| |]; simpl; intros H; try discriminate.
  injection H as <- <-. eauto.
Qed.

Lemma process_dir_after (fuel : nat) (fs : filesystem) (current_dir : path)
  (indent : nat) (ignore_patterns : list string) (root_dir : path)
  (d : string) (sl cl : list string) :
  process_dir os
    (fun p st i => collect fuel fs p st i ignore_patterns root_dir)
    current_dir indent ignore_patterns root_dir d (sl, cl)
  = after sl cl
      (process_dir os
         (fun p st i => collect fuel fs p st i ignore_patterns root_dir)
         current_dir indent ignore_patterns root_dir d ([], [])).
Proof.
  unfold process_dir.
  destruct (any_match os (relpath os (join current_dir d) root_dir)
              ignore_patterns).
  - simpl. rewrite <- !app_assoc, app_nil_r. reflexivity.
  - rewrite collect_after, (collect_after _ _ _ ([] ++ _)).
    destruct (collect fuel fs (join current_dir d) ([], []) (indent + 1)
                ignore_patterns root_dir) as [[ds dc]| |];
      simpl; try reflexivity.
    rewrite <- !app_assoc. reflexivity.
Qed.

Lemma dir_loop_appends (fuel : nat) (fs : filesystem) (current_dir : path)
  (indent : nat) (ignore_patterns : list string) (root_dir : path)
  (dirs : list string) (sl cl sl' cl' : list string) :
  for_each dirs
    (process_dir os
       (fun p st i => collect fuel fs p st i ignore_patterns root_dir)
       current_dir indent ignore_patterns root_dir) (sl, cl)
  = Returns (sl', cl') ->
  exists ds dc, sl' = sl ++ ds /\ cl' = cl ++ dc.
Proof.
  rewrite for_each_after by (intros; apply process_dir_after).
  intros H. apply after_returns in H as (ds & dc & _ & -> & ->). eauto.
Qed.

Lemma file_loop_appends (fs : filesystem) (current_dir : path)
  (indent : nat) (ignore_patterns : list string) (root_dir : path)
  (files : list string) (sl cl sl' cl' : list string) :
  for_each files
    (process_file os fs current_dir indent ignore_patterns root_dir) (sl, cl)
  = Returns (sl', cl') ->
  exists ds dc, sl' = sl ++ ds /\ cl' = cl ++ dc.
Proof.
  rewrite for_each_after by (intros; apply process_file_after).
  intros H. apply after_returns in H as (ds & dc & _ & -> & ->). eauto.
Qed.

(** The traversal from the root calls itself on every walked directory,
    and goes on appending to what that call returns. *)
Lemma walked_call_lists (fuel : nat) (fs : filesystem)
  (ignore_patterns : list string) (root_dir : path) (sl cl : list string)
  (current_dir : path) (indent : nat) :
  walked os fs ignore_patterns root_dir current_dir indent ->
  collect fuel fs root_dir ([], []) 0 ignore_patterns root_dir
  = Returns (sl, cl) ->
  exists fuel' sl1 cl1 sl2 cl2 posts postc,
    collect fuel' fs current_dir (sl1, cl1) indent ignore_patterns root_dir
    = Returns (sl2, cl2)
    /\ sl = sl2 ++ posts /\ cl = cl2 ++ postc.
Proof.
  intros Hw Hrun. induction Hw as [|cur indent entries d Hw IH Hl Hin Hd Hign].
  - exists fuel, [], [], sl, cl, [], []. rewrite !app_nil_r. auto.
  - destruct IH
      as (fuel' & sl1 & cl1 & sl2 & cl2 & posts & postc & Hcall & -> & ->).
    destruct fuel' as [|f]; [discriminate|].
    rewrite collect_S, Hl in Hcall.
    match type of Hcall with
    | bind ?c _ = _ => destruct c as [[sla cla]| |] eqn:E; try discriminate
    end.
    cbn [bind] in Hcall.
    apply file_loop_appends in Hcall as (dsf & dcf & -> & ->).
    assert (Hind : In d (sort (filter (is_dir_entry fs cur) entries)))
      by (apply in_sort, filter_In; auto).
    apply in_split in Hind as (l1 & l2 & Hsplit). rewrite Hsplit in E.
    apply for_each_split in E as ([slb clb] & [slc clc] & _ & Hdcall & Hl2).
    apply dir_loop_appends in Hl2 as (dsd & dcd & -> & ->).
    unfold process_dir in Hdcall. rewrite Hign, Nat.add_1_r in Hdcall.
    exists f, (slb ++ [entry_line indent d]), clb, slc, clc.
    exists (dsd ++ dsf ++ posts), (dcd ++ dcf ++ postc).
    split; [exact Hdcall|]. rewrite <- !app_assoc. auto.
Qed.

(** X5: nothing that is there is left out.  Every directory, and every
    regular file with no reserved name, that a walked directory lists
    has its line in the structure list, indented by the depth of that
    directory; and the file has its whole content block in the content
    list. *)
Theorem every_entry_listed (fuel : nat) (fs : filesystem) (root_dir : path)
  (ignore_patterns : list string) (current_dir : path) (indent : nat)
  (entries : list string) (entry : string)
  (structure_lines content_lines : list string) :
  walked os fs ignore_patterns root_dir current_dir indent ->
  listdir fs current_dir = Ok entries ->
  In entry entries ->
  collect fuel fs root_dir ([], []) 0 ignore_patterns root_dir
  = Returns (structure_lines, content_lines) ->
  (is_dir_entry fs current_dir entry = true ->
   In (entry_line indent entry) structure_lines)
  /\ (is_file_entry SCRIPT_FILE fs current_dir entry = true ->
      In (entry_line indent entry) structure_lines
      /\ exists pre post,
           content_lines
           = pre
               ++ content_block os fs ignore_patterns root_dir
                    (FileEntry indent current_dir entry)
               ++ post).
Proof.
  intros Hw Hl Hin Hrun.
  destruct (walked_call_lists _ _ _ _ _ _ _ _ Hw Hrun)
    as (fuel' & sl1 & cl1 & sl2 & cl2 & posts & postc & Hcall & -> & ->).
  destruct (collect_level os SCRIPT_FILE _ _ _ _ _ _ _ _ _ _ _ Hl Hcall)
    as (subs & Hsubs & Hsl2).
  split.
  - intros Hd. apply in_or_app. left. rewrite Hsl2.
    assert (Hind : In entry (sort (filter (is_dir_entry fs current_dir)
                                     entries)))
      by (apply in_sort, filter_In; auto).
    destruct (dir_listing_in indent entry _ Hind subs) as (a & b & ->).
    + symmetry. eapply Forall2_length. exact Hsubs.
    + apply in_or_app. right. apply in_or_app. left.
      apply in_or_app. right. left. reflexivity.
  - intros Hf.
    assert (Hinf : In entry (sort (filter (is_file_entry SCRIPT_FILE fs
                                             current_dir) entries)))
      by (apply in_sort, filter_In; auto).
    split.
    + apply in_or_app. left. rewrite Hsl2.
      apply in_or_app. right. apply in_or_app. right.
      apply in_map. exact Hinf.
    + destruct fuel' as [|f]; [discriminate|].
      rewrite collect_S, Hl in Hcall.
      match type of Hcall with
      | bind ?c _ = _ => destruct c as [[sla cla]| |]; try discriminate
      end.
      cbn [bind] in Hcall.
      apply in_split in Hinf as (l1 & l2 & Hsplit). rewrite Hsplit in Hcall.
      apply for_each_split in Hcall
        as ([slb clb] & [slc clc] & _ & Hfile & Hrest).
      rewrite process_file_visit in Hfile. injection Hfile as <- <-.
      apply file_loop_appends in Hrest as (dsf & dcf & _ & ->).
      exists clb, (dcf ++ postc). rewrite <- !app_assoc. reflexivity.
Qed.

(** *** What keeps a run from returning *)




(** X7: a directory that the traversal walks and that cannot be listed
    is fatal: whatever the fuel, the run returns no text. *)
Theorem unreadable_directory_aborts (fs : filesystem) (root_dir : path)
  (ignore_patterns : list string) (current_dir : path) (indent : nat)
  (msg : string) :
  load_ignore_patterns fs (join root_dir PROJECT_IGNORE_FILE)
  = Ok ignore_patterns ->
  walked os fs ignore_patterns root_dir current_dir indent ->
  listdir fs current_dir = Raise msg ->
  forall fuel text,
    write_structure os SCRIPT_FILE fuel fs root_dir <> Returns text.
Proof.
  intros Hload Hw Hl fuel text. unfold write_structure.
  rewrite Hload. cbn [lift bind].
  destruct (collect fuel fs root_dir ([], []) 0 ignore_patterns root_dir)
    as [[sl cl]| |] eqn:E; try discriminate.
  exfalso.
  destruct (walked_call os SCRIPT_FILE _ _ _ _ _ _ _ _ Hw E)
    as (fuel' & sl1 & cl1 & sl2 & cl2 & post & Hcall & _).
  destruct fuel' as [|f]; [discriminate|].
  rewrite collect_S, Hl in Hcall. discriminate.
Qed.

(** *** The ignore-list, header and footer files *)

Lemma write_structure_parts (fuel : nat) (fs fs' : filesystem)
  (root_dir : path) (patterns patterns' : list string) :
  load_ignore_patterns fs (join root_dir PROJECT_IGNORE_FILE) = Ok patterns ->
  load_ignore_patterns fs' (join root_dir PROJECT_IGNORE_FILE)
  = Ok patterns' ->
  collect fuel fs' root_dir ([], []) 0 patterns' root_dir
  = collect fuel fs root_dir ([], []) 0 patterns root_dir ->
  read_optional_file fs' (join root_dir PROJECT_HEADER_FILE)
  = read_optional_file fs (join root_dir PROJECT_HEADER_FILE) ->
  read_optional_file fs' (join root_dir PROJECT_FOOTER_FILE)
  = read_optional_file fs (join root_dir PROJECT_FOOTER_FILE) ->
  write_structure os SCRIPT_FILE fuel fs' root_dir
  = write_structure os SCRIPT_FILE fuel fs root_dir.
Proof.
  intros Hl Hl' Hc Hh Hf. unfold write_structure.
  rewrite Hl, Hl', Hh, Hf. cbn [lift bind]. rewrite Hc. reflexivity.
Qed.

Lemma optional_reads_agree (fs fs' : filesystem) (p : path) :
  exists_ fs' p = exists_ fs p -> read_text fs' p = read_text fs p ->
  load_ignore_patterns fs' p = load_ignore_patterns fs p
  /\ read_optional_file fs' p = read_optional_file fs p.
Proof.
  intros He Hr. unfold load_ignore_patterns, read_optional_file.
  rewrite He, Hr. auto.
Qed.

(** X8: the ignore-list file matters through the set of its patterns
    only.  Two trees that differ in that file alone, with the same
    patterns loaded from it whatever their order, give the same text:
    reordering or repeating lines, adding blank or comment lines or
    padding them changes nothing. *)
Theorem ignore_file_through_pattern_set (fuel : nat) (fs fs' : filesystem)
  (root_dir : path) (patterns patterns' : list string) :
  same_but_entry root_dir PROJECT_IGNORE_FILE fs fs' ->
  isdir fs (join root_dir PROJECT_IGNORE_FILE) = false ->
  isdir fs' (join root_dir PROJECT_IGNORE_FILE) = false ->
  load_ignore_patterns fs (join root_dir PROJECT_IGNORE_FILE) = Ok patterns ->
  load_ignore_patterns fs' (join root_dir PROJECT_IGNORE_FILE)
  = Ok patterns' ->
  (forall p, In p patterns <-> In p patterns') ->
  write_structure os SCRIPT_FILE fuel fs' root_dir
  = write_structure os SCRIPT_FILE fuel fs root_dir.
Proof.
  intros Hbut Hd Hd' Hl Hl' Hsame.
  assert (Hres : is_reserved SCRIPT_FILE PROJECT_IGNORE_FILE = true).
  { apply is_reserved_in. simpl. auto. }
  assert (Hother : forall name,
             name <> PROJECT_IGNORE_FILE ->
             read_optional_file fs' (join root_dir name)
             = read_optional_file fs (join root_dir name)).
  { intros name Hname. destruct Hbut as [_ Hrest].
    destruct (Hrest (join root_dir name)) as (_ & _ & He & _ & Hr).
    - intros Hj. apply join_inj in Hj as [_ Hj]. exact (Hname Hj).
    - apply (optional_reads_agree fs fs'); assumption. }
  apply (write_structure_parts fuel fs fs' root_dir patterns patterns' Hl Hl');
    [|apply Hother; discriminate|apply Hother; discriminate].
  rewrite (collect_but_entry os SCRIPT_FILE fs fs' root_dir
             PROJECT_IGNORE_FILE patterns' root_dir Hbut);
    [|split; auto|split; auto].
  apply collect_patterns. intros p.
  destruct (any_match os p patterns) eqn:E.
  - apply any_match_spec in E as (q & Hq & Hn). apply any_match_spec.
    exists q. split; [apply Hsame; exact Hq | exact Hn].
  - apply any_match_false. intros q Hq.
    apply (proj1 (any_match_false os p patterns) E). apply Hsame. exact Hq.
Qed.

(** X9: the header and the footer files matter through their stripped
    text only.  Two trees that differ in one of these files alone, with
    the same stripped text read from it, give the same text; so a file
    of white space only gives what a missing file gives. *)
Theorem optional_file_through_stripped_text (fuel : nat)
  (fs fs' : filesystem) (root_dir : path) (name : string) :
  name = PROJECT_HEADER_FILE \/ name = PROJECT_FOOTER_FILE ->
  same_but_entry root_dir name fs fs' ->
  isdir fs (join root_dir name) = false ->
  isdir fs' (join root_dir name) = false ->
  read_optional_file fs' (join root_dir name)
  = read_optional_file fs (join root_dir name) ->
  write_structure os SCRIPT_FILE fuel fs' root_dir
  = write_structure os SCRIPT_FILE fuel fs root_dir.
Proof.
  intros Hname Hbut Hd Hd' Hsame.
  assert (Hres : is_reserved SCRIPT_FILE name = true).
  { apply is_reserved_in. destruct Hname as [-> | ->]; simpl; auto 10. }
  assert (Hother : forall other,
             other <> name ->
             load_ignore_patterns fs' (join root_dir other)
             = load_ignore_patterns fs (join root_dir other)
             /\ read_optional_file fs' (join root_dir other)
                = read_optional_file fs (join root_dir other)).
  { intros other Hne. destruct Hbut as [_ Hrest].
    destruct (Hrest (join root_dir other)) as (_ & _ & He & _ & Hr).
    - intros Hj. apply join_inj in Hj as [_ Hj]. exact (Hne Hj).
    - apply (optional_reads_agree fs fs'); assumption. }
  unfold write_structure.
  rewrite (proj1 (Hother PROJECT_IGNORE_FILE
                    ltac:(destruct Hname as [-> | ->]; discriminate))).
  destruct (load_ignore_patterns fs (join root_dir PROJECT_IGNORE_FILE))
    as [patterns|msg]; [|reflexivity].
  cbn [lift bind].
  rewrite (collect_but_entry os SCRIPT_FILE fs fs' root_dir name patterns
             root_dir Hbut); [|split; auto|split; auto].
  destruct Hname as [-> | ->].
  - rewrite Hsame, (proj2 (Hother PROJECT_FOOTER_FILE ltac:(discriminate))).
    reflexivity.
  - rewrite Hsame, (proj2 (Hother PROJECT_HEADER_FILE ltac:(discriminate))).
    reflexivity.
Qed.

(** *** A file that cannot be read *)




End Lists.

(** ** Patterns and relative paths *)

Lemma replace_char_app (old new : ascii) (a b : string) :
  replace_char old new (a ++ b)
  = (replace_char old new a ++ replace_char old new b)%string.
Proof. induction a as [|c a IH]; simpl; [reflexivity|]. rewrite IH. reflexivity. Qed.

Lemma replace_slash_concat (names : list string) :
  replace_char "/"%char "\"%char (String.concat "/" names)
  = replace_char "/"%char "\"%char (String.concat "\" names).
Proof.
  induction names as [|x [|y names] IH]; try reflexivity.
  change (String.concat "/" (x :: y :: names))
    with (x ++ "/" ++ String.concat "/" (y :: names))%string.
  change (String.concat "\" (x :: y :: names))
    with (x ++ "\" ++ String.concat "\" (y :: names))%string.
  rewrite !replace_char_app, IH. reflexivity.
Qed.

(** X10: which pattern ignores an entry.  On POSIX an entry below the
    root matches the patterns exactly when one of them is the names from
    the root down to the entry, joined by slashes.  On Windows a pattern
    matches the entry exactly when, its slashes turned into backslashes,
    it has the lowercase of those names joined by backslashes; so the
    names joined by slashes, or by backslashes, are such a pattern. *)
Theorem pattern_of_entry (root_dir rel : path) (patterns : list string) :
  rel <> [] ->
  (any_match posix (relpath posix (root_dir ++ rel) root_dir) patterns = true
   <-> In (String.concat "/" rel) patterns)
  /\ forall lowercase,
       (forall pattern,
           any_match (nt lowercase)
             (relpath (nt lowercase) (root_dir ++ rel) root_dir) [pattern]
           = true
           <-> lowercase (replace_char "/"%char "\"%char pattern)
               = lowercase
                   (replace_char "/"%char "\"%char (String.concat "\" rel)))
       /\ any_match (nt lowercase)
            (relpath (nt lowercase) (root_dir ++ rel) root_dir)
            [String.concat "/" rel] = true
       /\ any_match (nt lowercase)
            (relpath (nt lowercase) (root_dir ++ rel) root_dir)
            [String.concat "\" rel] = true.
Proof.
  intros Hrel. rewrite relpath_below.
  destruct rel as [|name rel]; [contradiction|]. split.
  - rewrite any_match_spec. simpl. split.
    + intros (q & Hin & ->). exact Hin.
    + intros Hin. eexists. split; [exact Hin | reflexivity].
  - intros lowercase. rewrite relpath_below.
    change (sep (nt lowercase)) with "\".
    assert (Hiff : forall pattern,
               any_match (nt lowercase) (String.concat "\" (name :: rel))
                 [pattern] = true
               <-> lowercase (replace_char "/"%char "\"%char pattern)
                   = lowercase
                       (replace_char "/"%char "\"%char
                          (String.concat "\" (name :: rel)))).
    { intros pattern. rewrite any_match_spec. cbn [normcase In]. split.
      - intros (q & [<- | []] & Hq). exact Hq.
      - intros H. exists pattern. auto. }
    split; [exact Hiff|]. split; apply Hiff; [|reflexivity].
    rewrite replace_slash_concat. reflexivity.
Qed.

(** ** The further properties on concrete trees *)

Lemma with_regular_file_same_but_entry (fs : filesystem) (dir : path)
  (name text : string) :
  same_but_entry dir name fs (with_regular_file fs dir name text).
Proof.
  split.
  - intros p. simpl. destruct (path_eqb p dir) eqn:Ep;
      destruct (listdir fs p) as [entries|msg]; try rewrite Ep; auto.
    simpl. rewrite String.eqb_refl. simpl. apply filter_absorb. auto.
  - intros p Hp. simpl.
    destruct (path_eqb p (join dir name)) eqn:E; [|auto].
    apply path_eqb_eq in E. contradiction.
Qed.

Lemma pattern_of_entry_witness :
  (any_match posix (relpath posix (proj ++ ["sub"; "d.txt"]) proj)
     ["c.txt"; "sub/d.txt"] = true
   <-> In (String.concat "/" ["sub"; "d.txt"]) ["c.txt"; "sub/d.txt"])
  /\ any_match (nt lower_ascii)
       (relpath (nt lower_ascii) (proj ++ ["sub"; "d.txt"]) proj)
       ["Sub/D.TXT"] = true.
Proof.
  destruct (pattern_of_entry proj ["sub"; "d.txt"] ["c.txt"; "sub/d.txt"])
    as [Hposix Hnt]; [discriminate|].
  split; [exact Hposix|].
  apply (proj1 (Hnt lower_ascii)). reflexivity.
Defined.

Lemma collect_appends_witness :
  exists ds dc,
    "seen" :: fst scenario_lists = ["seen"] ++ ds
    /\ "kept" :: snd scenario_lists = ["kept"] ++ dc
    /\ forall sl0 cl0,
         collect_structure_and_contents posix SCRIPT 3 scenario_fs proj
           (sl0, cl0) 0 ["c.txt"] proj
         = Returns (sl0 ++ ds, cl0 ++ dc).
Proof.
  apply (proj1 (collect_appends posix SCRIPT 3 scenario_fs proj 0 ["c.txt"]
                  proj ["seen"] ["kept"])).
  reflexivity.
Defined.

Lemma listed_entries_in_tree_witness :
  exists entries : list visit,
    Forall (entry_in_tree posix SCRIPT scenario_fs ["c.txt"] proj) entries
    /\ fst scenario_lists = map structure_line entries
    /\ snd scenario_lists
       = flat_map (content_block posix scenario_fs ["c.txt"] proj) entries.
Proof.
  apply (listed_entries_in_tree posix SCRIPT 3 scenario_fs proj ["c.txt"]
           (fst scenario_lists) (snd scenario_lists)).
  reflexivity.
Defined.

Lemma every_entry_listed_witness :
  is_file_entry SCRIPT scenario_fs (join proj "sub") "d.txt" = true
  /\ In (entry_line 1 "d.txt") (fst scenario_lists)
  /\ exists pre post,
       snd scenario_lists
       = pre
           ++ content_block posix scenario_fs ["c.txt"] proj
                (FileEntry 1 (join proj "sub") "d.txt")
           ++ post.
Proof.
  split; [reflexivity|].
  refine (proj2 (every_entry_listed posix SCRIPT 3 scenario_fs proj ["c.txt"]
                   (join proj "sub") 1 ["d.txt"] "d.txt"
                   (fst scenario_lists) (snd scenario_lists) _ _ _ _) _).
  - apply (walked_sub posix scenario_fs ["c.txt"] proj proj 0
             ["c.txt"; "sub"; ".projectignore"; "b.txt"; "a.txt"] "sub").
    + apply walked_root.
    + reflexivity.
    + right. left. reflexivity.
    + reflexivity.
    + reflexivity.
  - reflexivity.
  - left. reflexivity.
  - reflexivity.
  - reflexivity.
Defined.


Lemma unreadable_directory_aborts_witness :
  listdir locked_fs (join proj "private")
  = Raise "[Errno 13] Permission denied"
  /\ forall fuel text,
       write_structure posix SCRIPT fuel locked_fs proj <> Returns text.
Proof.
  split; [reflexivity|].
  apply (unreadable_directory_aborts posix SCRIPT locked_fs proj []
           (join proj "private") 1 "[Errno 13] Permission denied").
  - reflexivity.
  - apply (walked_sub posix locked_fs [] proj proj 0 ["a.txt"; "private"]
             "private").
    + apply walked_root.
    + reflexivity.
    + right. left. reflexivity.
    + reflexivity.
    + reflexivity.
  - reflexivity.
Defined.

Lemma ignore_file_through_pattern_set_witness :
  load_ignore_patterns padded_ignore_fs (join proj PROJECT_IGNORE_FILE)
  = Ok ["c.txt"]
  /\ write_structure posix SCRIPT 3 padded_ignore_fs proj
     = write_structure posix SCRIPT 3 scenario_fs proj.
Proof.
  split; [reflexivity|].
  apply (ignore_file_through_pattern_set posix SCRIPT 3 scenario_fs
           padded_ignore_fs proj ["c.txt"] ["c.txt"]).
  - apply with_regular_file_same_but_entry.
  - reflexivity.
  - reflexivity.
  - reflexivity.
  - reflexivity.
  - intros p. reflexivity.
Defined.

Lemma optional_file_through_stripped_text_witness :
  exists_ scenario_fs (join proj PROJECT_HEADER_FILE) = false
  /\ exists_ blank_header_fs (join proj PROJECT_HEADER_FILE) = true
  /\ write_structure posix SCRIPT 3 blank_header_fs proj
     = write_structure posix SCRIPT 3 scenario_fs proj.
Proof.
  split; [reflexivity|]. split; [reflexivity|].
  apply (optional_file_through_stripped_text posix SCRIPT 3 scenario_fs
           blank_header_fs proj PROJECT_HEADER_FILE).
  - left. reflexivity.
  - apply with_regular_file_same_but_entry.
  - reflexivity.
  - reflexivity.
  - reflexivity.
Defined.

(** What the run on the locked tree does is raise the error of the
    listing. *)
Example locked_run :
  write_structure posix SCRIPT 3 locked_fs proj
  = Raises "[Errno 13] Permission denied".
Proof. reflexivity. Qed.


(** White space beyond ASCII is stripped, inner white space is kept. *)
Example strip_unicode :
  strip (NBSP ++ " a" ++ IDEOGRAPHIC_SPACE ++ "b" ++ LINE_SEPARATOR ++ NL)
  = ("a" ++ IDEOGRAPHIC_SPACE ++ "b")%string
  /\ strip (NBSP ++ LINE_SEPARATOR) = EmptyString.
Proof. split; reflexivity. Qed.

Example padded_ignore_patterns :
  load_ignore_patterns padded_ignore_fs (join proj PROJECT_IGNORE_FILE)
  = Ok ["c.txt"].
Proof. reflexivity. Qed.
